(** * WikiAssist editor core: offset index, span locator, accept and highlight

    A shallow embedding of the position-mapping and mutation logic of
    [ui/src/components/Editor.tsx] and of the accept handler of
    [ui/src/App.tsx].

    JavaScript strings are sequences of UTF-16 code units; they are
    modelled as lists of code units, each a number, so that [length],
    [firstn] and [skipn] are the string operations of the source
    ([.length], [.slice]).  Numbers that hold indices and positions are
    modelled in [Z]. *)

From Stdlib Require Import ZArith NArith Ascii String Bool Lia List.
Import ListNotations.
Open Scope Z_scope.
Set Warnings "-register-all".

(** ** Strings *)

Definition codeUnit := N.

Definition jstring := list codeUnit.

Definition unit_of_char (c : ascii) : codeUnit := N_of_ascii c.

(** A string literal of the source, for characters below 256. *)
Definition lit (s : string) : jstring :=
  map unit_of_char (list_ascii_of_string s).

Definition jlen (s : jstring) : Z := Z.of_nat (length s).

(** The line feed pushed for block boundaries. *)
Definition nl : codeUnit := 10%N.

(** [Array.prototype.join]: the separator goes between the elements. *)
Fixpoint join (sep : jstring) (l : list jstring) : jstring :=
  match l with
  | [] => []
  | [x] => x
  | x :: r => x ++ sep ++ join sep r
  end.

(** ** The document host

    The structured document belongs to the editing surface (ProseMirror
    behind tiptap).  Its addressing scheme is the host's: a text node
    occupies one position per code unit, a leaf node one position, and any
    other node one position for its opening boundary, its content, and one
    for its closing boundary.  Adjacent text nodes are runs that differ in
    their marks. *)

Inductive pmnode : Type :=
| PText (marks : list string) (text : jstring)
| PElem (name : string) (isBlock : bool) (content : list pmnode)
| PLeaf (name : string) (isBlock : bool).

Definition document := list pmnode.

Section pmnode_induction.
Variable P : pmnode -> Prop.
Hypothesis Htext : forall m s, P (PText m s).
Hypothesis Hleaf : forall n b, P (PLeaf n b).
Hypothesis Helem : forall n b c, Forall P c -> P (PElem n b c).

Fixpoint pmnode_tree_ind (n : pmnode) : P n :=
  match n with
  | PText m s => Htext m s
  | PLeaf a b => Hleaf a b
  | PElem a b c =>
      Helem a b c
        ((fix all (l : list pmnode) : Forall P l :=
            match l with
            | [] => Forall_nil P
            | k :: r => Forall_cons k (pmnode_tree_ind k) (all r)
            end) c)
  end.
End pmnode_induction.

Definition isText (n : pmnode) : bool :=
  match n with PText _ _ => true | _ => false end.

Definition nodeIsBlock (n : pmnode) : bool :=
  match n with
  | PText _ _ => false
  | PElem _ b _ => b
  | PLeaf _ b => b
  end.

Definition nodeText (n : pmnode) : jstring :=
  match n with PText _ s => s | _ => [] end.

Fixpoint nodeSize (n : pmnode) : Z :=
  match n with
  | PText _ s => jlen s
  | PLeaf _ _ => 1
  | PElem _ _ c =>
      2 + (fix size (l : list pmnode) : Z :=
             match l with
             | [] => 0
             | k :: r => nodeSize k + size r
             end) c
  end.

Fixpoint fragmentSize (l : list pmnode) : Z :=
  match l with
  | [] => 0
  | k :: r => nodeSize k + fragmentSize r
  end.

(** [doc.descendants(f)]: every node below the root in document order,
    each with the position at which it starts. *)
Fixpoint nodesFrom (n : pmnode) (p : Z) : list (pmnode * Z) :=
  (n, p) ::
  match n with
  | PElem _ _ c =>
      (fix visit (l : list pmnode) (q : Z) : list (pmnode * Z) :=
         match l with
         | [] => []
         | k :: r => nodesFrom k q ++ visit r (q + nodeSize k)
         end) c (p + 1)
  | _ => []
  end.

Fixpoint fragmentFrom (l : list pmnode) (q : Z) : list (pmnode * Z) :=
  match l with
  | [] => []
  | k :: r => nodesFrom k q ++ fragmentFrom r (q + nodeSize k)
  end.

Definition descendants (doc : document) : list (pmnode * Z) :=
  fragmentFrom doc 0.

(** ** Offset index (Editor.tsx, accept effect, lines 115-127) *)

Record token : Type := mkToken
  { text : jstring; pos : Z; isVirtual : bool }.

(** The callback handed to [descendants]: a text node pushes its text, a
    block pushes a virtual newline, anything else pushes nothing. *)
Definition pushToken (visit : pmnode * Z) : list token :=
  let (node, p) := visit in
  if isText node then [mkToken (nodeText node) p false]
  else if nodeIsBlock node then [mkToken [nl] p true]
  else [].

Definition buildTokens (doc : document) : list token :=
  flat_map pushToken (descendants doc).

Definition fullText (tokens : list token) : jstring :=
  join [] (map text tokens).

(** [getPosFromIndex] (lines 147-167): the [for] loop with its early
    [return], then the fall-through to the end of the last token. *)
Fixpoint scanTokens (tokens : list token) (targetIndex currentLen : Z)
  : option Z :=
  match tokens with
  | [] => None
  | tok :: rest =>
      let tokenLen := jlen (text tok) in
      if targetIndex <? currentLen + tokenLen then
        if isVirtual tok then Some (pos tok + 1)
        else Some (pos tok + (targetIndex - currentLen))
      else scanTokens rest targetIndex (currentLen + tokenLen)
  end.

Definition endOfLast (tokens : list token) : Z :=
  match last (map Some tokens) None with
  | Some l => pos l + jlen (text l)
  | None => 0
  end.

Definition getPosFromIndex (tokens : list token) (targetIndex : Z) : Z :=
  match scanTokens tokens targetIndex 0 with
  | Some p => p
  | None => endOfLast tokens
  end.

(** ** Sample documents *)

Definition paragraph (s : string) : pmnode :=
  PElem "paragraph" true [PText [] (lit s)].

Definition twoParagraphs : document := [paragraph "ab"; paragraph "cd"].

Definition bulletItem : document :=
  [PElem "bulletList" true
     [PElem "listItem" true [paragraph "ab"]]].

(** ** Span locator (Editor.tsx, lines 129-144) *)

(** The code units of the class [\s], which are also the ones [trim]
    strips: the white space and line terminator characters of the
    language (tab, line feed, vertical tab, form feed, carriage return,
    space, no-break space, U+1680, U+2000 to U+200A, U+2028, U+2029,
    U+202F, U+205F, U+3000 and U+FEFF). *)
Definition isWhitespace (c : codeUnit) : bool :=
  existsb (N.eqb c)
    [9; 10; 11; 12; 13; 32; 160; 5760; 8192; 8193; 8194; 8195; 8196; 8197;
     8198; 8199; 8200; 8201; 8202; 8232; 8233; 8239; 8287; 12288; 65279]%N.

Fixpoint trimStart (s : jstring) : jstring :=
  match s with
  | [] => []
  | c :: r => if isWhitespace c then trimStart r else s
  end.

Definition trimEnd (s : jstring) : jstring := rev (trimStart (rev s)).

(** [String.prototype.trim] *)
Definition trim (s : jstring) : jstring := trimEnd (trimStart s).

Definition startsWithSpace (s : jstring) : bool :=
  match s with
  | [] => false
  | c :: _ => isWhitespace c
  end.

(** [s.split(/\s+/)]: the pieces between maximal runs of whitespace.  A
    run at either end leaves an empty piece there, and the empty string
    gives one empty piece. *)
Fixpoint splitSpaces (s : jstring) : list jstring :=
  match s with
  | [] => [[]]
  | c :: r =>
      if isWhitespace c then
        if startsWithSpace r then splitSpaces r else [] :: splitSpaces r
      else
        match splitSpaces r with
        | w :: ws => (c :: w) :: ws
        | [] => [[c]]
        end
  end.

(** The characters of the class in [escapeRegExp]. *)
Definition isSyntaxChar (c : codeUnit) : bool :=
  existsb (N.eqb c) (lit ".*+?^${}()|[]\").

Definition backslash : codeUnit := unit_of_char "\".
Definition letter_s : codeUnit := unit_of_char "s".
Definition plus_sign : codeUnit := unit_of_char "+".

(** [string.replace(/[.*+?^${}()|[\]\\]/g, '\\$&')] *)
Definition escapeRegExp (s : jstring) : jstring :=
  flat_map (fun c => if isSyntaxChar c then [backslash; c] else [c]) s.

Definition sentenceParts (original_sentence : jstring) : list jstring :=
  splitSpaces (trim original_sentence).

Definition sentencePattern (original_sentence : jstring) : jstring :=
  join (lit "\s+") (map escapeRegExp (sentenceParts original_sentence)).

(** The regular expressions the pattern source can denote: a sequence of
    literal characters and of [\s+]. *)
Inductive reItem : Type :=
| RChar (c : codeUnit)
| RSpacePlus.

(** [new RegExp(pattern)] on that fragment of the pattern syntax: an
    escaped syntax character and any other plain character are literals,
    [\s+] is a greedy run of whitespace.  Anything else is not accepted. *)
Fixpoint parseRegExp (p : jstring) : option (list reItem) :=
  match p with
  | [] => Some []
  | c :: r =>
      if N.eqb c backslash then
        match r with
        | [] => None
        | d :: r' =>
            if N.eqb d letter_s then
              match r' with
              | q :: r'' =>
                  if N.eqb q plus_sign then
                    option_map (cons RSpacePlus) (parseRegExp r'')
                  else None
              | [] => None
              end
            else if isSyntaxChar d then option_map (cons (RChar d)) (parseRegExp r')
            else None
        end
      else if isSyntaxChar c then None
      else option_map (cons (RChar c)) (parseRegExp r)
  end.

(** Backtracking match of the items at the start of a string; the result
    is the length matched.  [\s+] takes the longest run first and gives
    characters back one at a time. *)
Fixpoint matchHere (items : list reItem) : jstring -> option nat :=
  match items with
  | [] => fun _ => Some 0%nat
  | RChar c :: rest =>
      fun s =>
        match s with
        | d :: s' => if N.eqb c d then option_map S (matchHere rest s') else None
        | [] => None
        end
  | RSpacePlus :: rest =>
      fix run (s : jstring) : option nat :=
        match s with
        | d :: s' =>
            if isWhitespace d then
              match run s' with
              | Some n => Some (S n)
              | None => option_map S (matchHere rest s')
              end
            else None
        | [] => None
        end
  end.

(** [regex.exec(fullText)] without flags: the match at the least index. *)
Fixpoint exec (items : list reItem) (s : jstring) (index : nat)
  : option (nat * nat) :=
  match matchHere items s with
  | Some n => Some (index, n)
  | None =>
      match s with
      | [] => None
      | _ :: s' => exec items s' (S index)
      end
  end.

(** Results of operations that can throw. *)
Inductive Res (A : Type) : Type :=
| Normal (a : A)
| Throws (error : string).
Arguments Normal {A} a.
Arguments Throws {A} error.

Definition newRegExp (pattern : jstring) : Res (list reItem) :=
  match parseRegExp pattern with
  | Some re => Normal re
  | None => Throws "SyntaxError"
  end.

(** Lines 136-144: the pattern, the search, and the two indices of the
    match ([startIndex], [endIndex]). *)
Definition locate (fullText original_sentence : jstring)
  : Res (option (Z * Z)) :=
  match newRegExp (sentencePattern original_sentence) with
  | Throws e => Throws e
  | Normal regex =>
      match exec regex fullText 0 with
      | Some (index, n) =>
          let startIndex := Z.of_nat index in
          let endIndex := startIndex + Z.of_nat n in
          Normal (Some (startIndex, endIndex))
      | None => Normal None
      end
  end.

(** What the pattern of a sentence denotes: the parts, in order, with a
    non-empty run of whitespace between consecutive parts. *)
Inductive wordsMatch : list jstring -> jstring -> Prop :=
| WM_last w : wordsMatch [w] w
| WM_more w sep ws rest :
    sep <> [] -> forallb isWhitespace sep = true ->
    ws <> [] -> wordsMatch ws rest ->
    wordsMatch (w :: ws) (w ++ sep ++ rest).

(** The half-open span [i, j) of a text matches the parts. *)
Definition occursAt (ws : list jstring) (txt : jstring) (i j : Z) : Prop :=
  exists pre mid post,
    txt = pre ++ mid ++ post /\ jlen pre = i /\ jlen (pre ++ mid) = j /\
    wordsMatch ws mid.

(** The items that the pattern of a list of parts compiles to. *)
Fixpoint wordsItems (ws : list jstring) : list reItem :=
  match ws with
  | [] => []
  | [w] => map RChar w
  | w :: r => map RChar w ++ RSpacePlus :: wordsItems r
  end.

(** The strings a sequence of items matches. *)
Inductive itemsMatch : list reItem -> jstring -> Prop :=
| IM_nil : itemsMatch [] []
| IM_char c r s : itemsMatch r s -> itemsMatch (RChar c :: r) (c :: s)
| IM_space r sep s :
    sep <> [] -> forallb isWhitespace sep = true ->
    itemsMatch r s -> itemsMatch (RSpacePlus :: r) (sep ++ s).

Fixpoint endsWithSpace (s : jstring) : bool :=
  match s with
  | [] => false
  | [c] => isWhitespace c
  | _ :: r => endsWithSpace r
  end.

Definition noSpace (w : jstring) : bool :=
  forallb (fun c => negb (isWhitespace c)) w.

(** ** Feedback records and the application state (App.tsx) *)

Inductive Status : Type := pending | accepted | rejected.
Inductive IssueType : Type := npov | verifiability | original_research | style.
Inductive Severity : Type := high | medium | low.

(** A feedback object.  [ref] stands for the identity of the object: the
    handlers compare records with [===], and a spread copy is a new
    object. *)
Record Feedback : Type := mkFeedback
  { ref : nat;
    original_sentence : jstring;
    feedback : jstring;
    suggested_text : jstring;
    issue_type : IssueType;
    severity : Severity;
    start_index : Z;
    end_index : Z;
    status : Status }.

Definition sameObject (a b : Feedback) : bool := Nat.eqb (ref a) (ref b).

(** [{ ...fb, status: s }] allocated at reference [r]. *)
Definition withStatus (fb : Feedback) (s : Status) (r : nat) : Feedback :=
  mkFeedback r (original_sentence fb) (feedback fb) (suggested_text fb)
    (issue_type fb) (severity fb) (start_index fb) (end_index fb) s.

Record ReviewResponse : Type := mkReview
  { feedbacks : list Feedback;
    overall_score : Z;
    summary : jstring;
    is_ready : bool }.

Record AppState : Type := mkApp
  { reviewData : option ReviewResponse;
    selectedFeedback : option Feedback;
    feedbackToAccept : option Feedback;
    nextRef : nat }.

(** [feedbacks.map(fb => fb === feedback ? { ...fb, status } : fb)], with
    the references of the copies taken from [next]. *)
Fixpoint mapStatus (fbs : list Feedback) (target : Feedback) (s : Status)
  (next : nat) : list Feedback * nat :=
  match fbs with
  | [] => ([], next)
  | fb :: r =>
      if sameObject fb target then
        let (r', next') := mapStatus r target s (S next) in
        (withStatus fb s next :: r', next')
      else
        let (r', next') := mapStatus r target s next in
        (fb :: r', next')
  end.

Definition handleAcceptFeedback (st : AppState) (fb : Feedback) : AppState :=
  mkApp (reviewData st) (selectedFeedback st) (Some fb) (nextRef st).

(** [onFeedbackAccepted] (App.tsx, lines 97-111) *)
Definition onFeedbackAccepted (st : AppState) (fb : Feedback) : AppState :=
  match reviewData st with
  | None => st
  | Some rd =>
      let (updatedFeedbacks, next) :=
        mapStatus (feedbacks rd) fb accepted (nextRef st) in
      mkApp (Some (mkReview updatedFeedbacks (overall_score rd) (summary rd)
                     (is_ready rd)))
        None None next
  end.

(** [handleRejectFeedback] (App.tsx, lines 113-126) *)
Definition handleRejectFeedback (st : AppState) (fb : Feedback) : AppState :=
  match reviewData st with
  | None => st
  | Some rd =>
      let (updatedFeedbacks, next) :=
        mapStatus (feedbacks rd) fb rejected (nextRef st) in
      mkApp (Some (mkReview updatedFeedbacks (overall_score rd) (summary rd)
                     (is_ready rd)))
        None (feedbackToAccept st) next
  end.

Definition statuses (st : AppState) : list Status :=
  match reviewData st with
  | None => []
  | Some rd => map status (feedbacks rd)
  end.

(** ** Accepting a suggestion (Editor.tsx, lines 108-190) *)

(** The combined edit of the host,
    [editor.chain().focus().deleteRange({from, to}).insertContentAt(from, text).run()]:
    it either completes with the new document or raises, leaving the
    document in a state of its choosing. *)
Inductive HostResult : Type :=
| HostDone (doc : document)
| HostRaised (doc : document) (error : string).

Definition hostEdit : Type := document -> Z -> Z -> jstring -> HostResult.

(** What the effect lets out. *)
Inductive Signal : Type :=
| AcceptComplete (fb : Feedback)
| Alert (message : string)
| ConsoleWarn (message : string)
| ConsoleError (message : string).

Definition isAcceptComplete (s : Signal) : bool :=
  match s with AcceptComplete _ => true | _ => false end.

Definition notFoundSignals : list Signal :=
  [ConsoleWarn "Could not find matching text with regex.";
   Alert "Could not find the original sentence to replace. It might have been modified."].

Definition mutationFailedSignals : list Signal :=
  [ConsoleError "Failed to apply suggestion:";
   Alert "An error occurred while applying the suggestion. Please edit manually."].

(** The effect: with no record to accept it returns at once; otherwise it
    builds the tokens and the flat text, locates the sentence, maps the two
    indices to positions and runs the host edit inside [try]. *)
Definition acceptEffect (edit : hostEdit) (doc : document)
  (toAccept : option Feedback) : Res (document * list Signal) :=
  match toAccept with
  | None => Normal (doc, [])
  | Some fb =>
      let tokens := buildTokens doc in
      let flat := fullText tokens in
      match locate flat (original_sentence fb) with
      | Throws e => Throws e
      | Normal (Some (startIndex, endIndex)) =>
          let from := getPosFromIndex tokens startIndex in
          let to := getPosFromIndex tokens endIndex in
          match edit doc from to (suggested_text fb) with
          | HostDone doc' => Normal (doc', [AcceptComplete fb])
          | HostRaised doc' _ => Normal (doc', mutationFailedSignals)
          end
      | Normal None => Normal (doc, notFoundSignals)
      end
  end.

(** The application receives the signals; only the completion signal has
    a handler that changes its state. *)
Definition deliver (st : AppState) (s : Signal) : AppState :=
  match s with
  | AcceptComplete fb => onFeedbackAccepted st fb
  | _ => st
  end.

(** One accept, from the click in the panel to the state after the
    effect has run. *)
Definition acceptFlow (edit : hostEdit) (st : AppState) (doc : document)
  (fb : Feedback) : Res (AppState * document * list Signal) :=
  let st1 := handleAcceptFeedback st fb in
  match acceptEffect edit doc (feedbackToAccept st1) with
  | Throws e => Throws e
  | Normal (doc', signals) => Normal (fold_left deliver signals st1, doc', signals)
  end.

(** *** A host for text blocks

    The edit of the host for a range that lies in the inline content of
    one node: the range is cut out, the text is inserted with the marks
    found at the cut, empty runs are dropped and runs with equal marks are
    joined.  Positions outside the document raise.  For a range that
    crosses a node boundary the host restructures the document; that is
    outside this model, which answers there as if the edit had raised.

    This is a sample host for the examples, not the editor itself: the
    inserted text is taken as characters, where the editor parses it as
    content, and a node emptied by the edit is kept.  The theorems about
    the accept effect are stated for every host. *)

Definition isInline (n : pmnode) : bool := negb (nodeIsBlock n).

(** The children before and after a position of the content. *)
Fixpoint cutAt (kids : list pmnode) (k : Z) : option (list pmnode * list pmnode) :=
  if k =? 0 then Some ([], kids)
  else
    match kids with
    | [] => None
    | PText m s :: r =>
        if k <? jlen s then
          Some ([PText m (firstn (Z.to_nat k) s)], PText m (skipn (Z.to_nat k) s) :: r)
        else
          match cutAt r (k - jlen s) with
          | Some (a, b) => Some (PText m s :: a, b)
          | None => None
          end
    | n :: r =>
        if k <? nodeSize n then None
        else
          match cutAt r (k - nodeSize n) with
          | Some (a, b) => Some (n :: a, b)
          | None => None
          end
    end.

Definition sameMarks (a b : list string) : bool :=
  if list_eq_dec string_dec a b then true else false.

Fixpoint normalizeInline (kids : list pmnode) : list pmnode :=
  match kids with
  | [] => []
  | PText m s :: r =>
      match s with
      | [] => normalizeInline r
      | _ =>
          match normalizeInline r with
          | PText m' s' :: r' =>
              if sameMarks m m' then PText m (s ++ s') :: r'
              else PText m s :: PText m' s' :: r'
          | r' => PText m s :: r'
          end
      end
  | n :: r => n :: normalizeInline r
  end.

Definition marksAt (before after : list pmnode) : list string :=
  match last (map Some before) None with
  | Some (PText m _) => m
  | _ => match after with
         | PText m _ :: _ => m
         | _ => []
         end
  end.

Definition replaceInline (kids : list pmnode) (from to : Z) (ins : jstring)
  : option (list pmnode) :=
  if forallb isInline kids then
    match cutAt kids from, cutAt kids to with
    | Some (before, _), Some (_, after) =>
        Some (normalizeInline
                (before ++ [PText (marksAt before after) ins] ++ after))
    | _, _ => None
    end
  else None.

(** The node whose content holds both ends of the range is found by
    descending as long as one child contains them strictly inside; the
    positions are relative to the start of the content at hand. *)
Fixpoint replaceInNode (n : pmnode) (from to : Z) (ins : jstring)
  : option pmnode :=
  match n with
  | PElem a b c =>
      match
        (fix inKids (kids : list pmnode) (from to : Z) {struct kids}
           : option (list pmnode) :=
           match kids with
           | [] => None
           | k :: r =>
               if (0 <? from) && (to <? nodeSize k) then
                 match replaceInNode k (from - 1) (to - 1) ins with
                 | Some k' => Some (k' :: r)
                 | None => None
                 end
               else if nodeSize k <=? from then
                 match inKids r (from - nodeSize k) (to - nodeSize k) with
                 | Some r' => Some (k :: r')
                 | None => None
                 end
               else None
           end) c from to
      with
      | Some c' => Some (PElem a b c')
      | None => option_map (PElem a b) (replaceInline c from to ins)
      end
  | _ => None
  end.

Definition replaceInDocument (doc : document) (from to : Z) (ins : jstring)
  : option document :=
  match replaceInNode (PElem "doc" true doc) from to ins with
  | Some (PElem _ _ doc') => Some doc'
  | _ => None
  end.

Definition textBlockHost : hostEdit :=
  fun doc from to ins =>
    if (from <? 0) || (to <? from) || (fragmentSize doc <? to) then
      HostRaised doc "RangeError"
    else
      match replaceInDocument doc from to ins with
      | Some doc' => HostDone doc'
      | None => HostRaised doc "outside the model"
      end.

(** A host whose edit always raises. *)
Definition refusingHost : hostEdit :=
  fun doc _ _ _ => HostRaised doc "RangeError".

(** The text of a document: the texts of its text nodes in document
    order, with nothing for the boundaries. *)
Definition textContent (doc : document) : jstring :=
  concat (map (fun visit => nodeText (fst visit)) (descendants doc)).

(** ** Highlighting (Editor.tsx, lines 193-246) *)

(** The rendered tree below the editor element.  An element carries its
    tag, its class list and, for a marker, the reference of the record
    its click handler selects. *)
Inductive dnode : Type :=
| DText (data : jstring)
| DElem (tag : string) (classList : list string) (onclick : option nat)
        (children : list dnode).

Definition dom := list dnode.

Section dnode_induction.
Variable P : dnode -> Prop.
Hypothesis Hdtext : forall s, P (DText s).
Hypothesis Hdelem : forall t c o ks, Forall P ks -> P (DElem t c o ks).

Fixpoint dnode_tree_ind (n : dnode) : P n :=
  match n with
  | DText s => Hdtext s
  | DElem t c o ks =>
      Hdelem t c o ks
        ((fix all (l : list dnode) : Forall P l :=
            match l with
            | [] => Forall_nil P
            | k :: r => Forall_cons k (dnode_tree_ind k) (all r)
            end) ks)
  end.
End dnode_induction.

(** The text nodes below a node in tree order: what a tree walker that
    shows text nodes only returns, call after call. *)
Fixpoint textNodes (n : dnode) : list jstring :=
  match n with
  | DText s => [s]
  | DElem _ _ _ ks => flat_map textNodes ks
  end.

Definition walkerTexts (d : dom) : list jstring := flat_map textNodes d.

(** [textContent] of the editor element. *)
Definition domText (d : dom) : jstring := concat (walkerTexts d).

(** The tree with its [k]-th text node replaced by the nodes [f] makes of
    its data. *)
Section replace_text.
Variable f : jstring -> list dnode.

Fixpoint replaceTextIn (n : dnode) (k : nat) : list dnode :=
  match n with
  | DText s => match k with O => f s | S _ => [n] end
  | DElem t c o ks =>
      [DElem t c o
         ((fix go (l : list dnode) (k : nat) {struct l} : list dnode :=
             match l with
             | [] => []
             | x :: r =>
                 if (k <? length (textNodes x))%nat then replaceTextIn x k ++ r
                 else x :: go r (k - length (textNodes x))%nat
             end) ks k)]
  end.

Fixpoint replaceText (l : dom) (k : nat) : dom :=
  match l with
  | [] => []
  | x :: r =>
      if (k <? length (textNodes x))%nat then replaceTextIn x k ++ r
      else x :: replaceText r (k - length (textNodes x))%nat
  end.
End replace_text.

Definition bind {A B : Type} (r : Res A) (f : A -> Res B) : Res B :=
  match r with
  | Normal a => f a
  | Throws e => Throws e
  end.

Definition tryCatch {A : Type} (body : Res A) (handler : string -> Res A)
  : Res A :=
  match body with
  | Normal a => Normal a
  | Throws e => handler e
  end.

(** [range.setStart(node, offset)] and [range.setEnd(node, offset)] on a
    text node: an offset outside the data raises. *)
Definition setBoundary (data : jstring) (offset : Z) : Res Z :=
  if (offset <? 0) || (jlen data <? offset) then Throws "IndexSizeError"
  else Normal offset.

(** The three nodes that [surroundContents] leaves in place of a text
    node for a range inside it: the node itself cut down to what is before
    the range, the new element around what is in the range, and a new text
    node with what is after the range. *)
Definition wrapRange (a b : Z) (mark : list dnode -> dnode) (data : jstring)
  : list dnode :=
  [DText (firstn (Z.to_nat a) data);
   mark [DText (firstn (Z.to_nat (b - a)) (skipn (Z.to_nat a) data))];
   DText (skipn (Z.to_nat b) data)].

(** Lines 229-237: a range over part of the [k]-th text node, wrapped in
    the new element. *)
Definition surroundContents (d : dom) (k : nat) (relativeStart relativeEnd : Z)
  (mark : list dnode -> dnode) : Res dom :=
  match nth_error (walkerTexts d) k with
  | None => Throws "TypeError"
  | Some data =>
      bind (setBoundary data relativeStart) (fun a =>
      bind (setBoundary data relativeEnd) (fun b =>
      Normal (replaceText (wrapRange (Z.min a b) b mark) d k)))
  end.

Definition severityName (s : Severity) : string :=
  match s with high => "high" | medium => "medium" | low => "low" end.

Definition isSelected (selected : option Feedback) (fb : Feedback) : bool :=
  match selected with
  | Some sel => sameObject sel fb
  | None => false
  end.

(** The [mark] element made for a record (lines 233-235). *)
Definition highlightMark (fb : Feedback) (selected : option Feedback)
  : list dnode -> dnode :=
  DElem "mark"
    (["highlight"; String.append "highlight-" (severityName (severity fb))]%string
       ++ (if isSelected selected fb then ["highlight-selected"%string] else []))
    (Some (ref fb)).

(** The body of the [while] loop for one text node (lines 218-242); the
    value is the tree after it. *)
Definition visitTextNode (d : dom) (fb : Feedback) (selected : option Feedback)
  (k : nat) (currentPos : Z) (data : jstring) : Res dom :=
  let nodeLength := jlen data in
  let nodeStart := currentPos in
  let nodeEnd := currentPos + nodeLength in
  if (nodeStart <=? start_index fb) && (start_index fb <? nodeEnd) then
    let relativeStart := start_index fb - nodeStart in
    let relativeEnd := Z.min (end_index fb - nodeStart) nodeLength in
    if relativeStart <? relativeEnd then
      tryCatch
        (surroundContents d k relativeStart relativeEnd (highlightMark fb selected))
        (fun _ => Normal d)
    else Normal d
  else Normal d.

(** The [while] loop over the live tree: [k] text nodes have been
    returned by the walker, the next call returns the one after them in
    the tree as it is now.  [None] stands for a loop that has not ended
    within [fuel] rounds. *)
Fixpoint walk (fuel : nat) (fb : Feedback) (selected : option Feedback)
  (d : dom) (k : nat) (currentPos : Z) : option (Res dom) :=
  match fuel with
  | O => None
  | S fuel' =>
      match nth_error (walkerTexts d) k with
      | None => Some (Normal d)
      | Some data =>
          match visitTextNode d fb selected k currentPos data with
          | Normal d' => walk fuel' fb selected d' (S k) (currentPos + jlen data)
          | Throws e => Some (Throws e)
          end
      end
  end.

(** One round of [forEach] (lines 210-245). *)
Definition paintRecord (d : dom) (fb : Feedback) (selected : option Feedback)
  : option (Res dom) :=
  walk (length (walkerTexts d) + 3) fb selected d 0 0.

Fixpoint forEachPaint (fbs : list Feedback) (selected : option Feedback)
  (d : dom) : option (Res dom) :=
  match fbs with
  | [] => Some (Normal d)
  | fb :: r =>
      match paintRecord d fb selected with
      | Some (Normal d') => forEachPaint r selected d'
      | other => other
      end
  end.

Definition isPending (fb : Feedback) : bool :=
  match status fb with pending => true | _ => false end.

(** *** Removing the markers of the previous pass (lines 198-205) *)

Definition isHighlight (n : dnode) : bool :=
  match n with
  | DElem tag classes _ _ =>
      String.eqb tag "mark" && existsb (String.eqb "highlight") classes
  | DText _ => false
  end.

(** Adjacent text nodes joined and empty ones dropped, among siblings. *)
Fixpoint mergeTexts (l : list dnode) : list dnode :=
  match l with
  | [] => []
  | DText s :: r =>
      match s with
      | [] => mergeTexts r
      | _ =>
          match mergeTexts r with
          | DText s' :: r' => DText (s ++ s') :: r'
          | r' => DText s :: r'
          end
      end
  | e :: r => e :: mergeTexts r
  end.

(** [node.normalize()], which works on the whole subtree. *)
Fixpoint normalizeNode (n : dnode) : dnode :=
  match n with
  | DText _ => n
  | DElem t c o ks => DElem t c o (mergeTexts (map normalizeNode ks))
  end.

(** A marker becomes a text node with its text ([replaceChild] with
    [createTextNode(el.textContent)]); other nodes are searched for
    markers. *)
Definition unmark (rec : dnode -> dnode) (k : dnode) : dnode :=
  if isHighlight k then DText (concat (textNodes k)) else rec k.

(** Every outermost marker is replaced, and each parent that held one is
    normalized. *)
Fixpoint removeHighlightsIn (n : dnode) : dnode :=
  match n with
  | DText _ => n
  | DElem t c o ks =>
      let ks' := map (unmark removeHighlightsIn) ks in
      if existsb isHighlight ks then DElem t c o (mergeTexts (map normalizeNode ks'))
      else DElem t c o ks'
  end.

Definition removeHighlights (d : dom) : dom :=
  let d' := map (unmark removeHighlightsIn) d in
  if existsb isHighlight d then mergeTexts (map normalizeNode d') else d'.

(** The highlight effect. *)
Definition highlightEffect (isMarkdownMode : bool) (d : dom)
  (fbs : list Feedback) (selected : option Feedback) : option (Res dom) :=
  if isMarkdownMode then Some (Normal d)
  else
    let pendingFeedbacks := filter isPending fbs in
    forEachPaint pendingFeedbacks selected (removeHighlights d).


(** The first text run whose range of offsets contains an offset, with
    its index and the offset at which it starts. *)
Fixpoint runAt (ts : list jstring) (start : Z) (k : nat) (currentPos : Z)
  : option (nat * Z * jstring) :=
  match ts with
  | [] => None
  | s :: r =>
      if (currentPos <=? start) && (start <? currentPos + jlen s)
      then Some (k, currentPos, s)
      else runAt r start (S k) (currentPos + jlen s)
  end.

(** The characters of a string from offset [a] up to offset [b]. *)
Definition slice (a b : Z) (s : jstring) : jstring :=
  firstn (Z.to_nat (b - a)) (skipn (Z.to_nat a) s).

(** The markers of a tree with the text each one covers. *)
Fixpoint markersIn (n : dnode) : list (option nat * jstring) :=
  match n with
  | DText _ => []
  | DElem t c o ks =>
      (if isHighlight n then [(o, concat (flat_map textNodes ks))] else [])
      ++ flat_map markersIn ks
  end.

Definition markers (d : dom) : list (option nat * jstring) :=
  flat_map markersIn d.

(** What one round of [forEach] comes to: the loop body at the first
    run that contains [start_index], if there is one. *)
Definition paintAt (d : dom) (fb : Feedback) (selected : option Feedback)
  (run : option (nat * Z * jstring)) : Res dom :=
  match run with
  | Some (k, nodeStart, data) => visitTextNode d fb selected k nodeStart data
  | None => Normal d
  end.



Definition twentyChars : dom :=
  [DElem "p" [] None [DText (lit "0123456789abcdefghij")]].

Definition recordA : Feedback := mkFeedback 1 [] [] [] npov high 0 10 pending.
Definition recordB : Feedback := mkFeedback 2 [] [] [] npov low 5 15 pending.


(** The token whose cumulative range contains an offset, with the length
    accumulated before it and the tokens after it.  [scanTokens] returns a
    position inside this token; the function is used to state that. *)
Fixpoint tokenAt (tokens : list token) (targetIndex currentLen : Z)
  : option (token * Z * list token) :=
  match tokens with
  | [] => None
  | tok :: rest =>
      let tokenLen := jlen (text tok) in
      if targetIndex <? currentLen + tokenLen then Some (tok, currentLen, rest)
      else tokenAt rest targetIndex (currentLen + tokenLen)
  end.

(** Where the real content after a token starts: the position of the
    first token after it that is not virtual. *)
Definition followingRealStart (rest : list token) : option Z :=
  option_map pos (find (fun t => negb (isVirtual t)) rest).

(** The reading of the edge case in which an offset on a synthetic token
    is sent to the start of the real content that follows it. *)
Definition virtualMapsToFollowingContent (tokens : list token) (k : Z) : Prop :=
  forall tok c rest,
    tokenAt tokens k 0 = Some (tok, c, rest) ->
    isVirtual tok = true ->
    followingRealStart rest = Some (getPosFromIndex tokens k).

(** ** Notions used in the statements, and sample data *)

(** Where a token ends in the document: a real token covers its text, a
    virtual one the block boundary it stands for. *)
Definition tokenEnd (t : token) : Z :=
  if isVirtual t then pos t + 1 else pos t + jlen (text t).

Definition tokenWf (t : token) : Prop :=
  isVirtual t = true -> text t = [nl].

Fixpoint ordered (lo : Z) (ts : list token) : Prop :=
  match ts with
  | [] => True
  | t :: r => lo <= pos t /\ tokenWf t /\ ordered (tokenEnd t) r
  end.

Fixpoint orderedEnd (lo : Z) (ts : list token) : Z :=
  match ts with
  | [] => lo
  | t :: r => orderedEnd (tokenEnd t) r
  end.

(** The loop of [getPosFromIndex] with the value returned after it made
    explicit. *)
Definition resolveFrom (ts : list token) (k c d : Z) : Z :=
  match scanTokens ts k c with Some p => p | None => d end.

Definition climateText : jstring :=
  lit "Climate   change" ++ [nl] ++ lit "is important.".

Definition parisBefore : jstring := lit "Paris is obviously the best city.".
Definition parisAfter : jstring := lit "Paris is the capital of France.".

Definition parisRecord : Feedback :=
  mkFeedback 1 parisBefore (lit "Peacock term.") parisAfter npov high 0 35 pending.

Definition parisApp : AppState :=
  mkApp (Some (mkReview [parisRecord] 70 (lit "One issue.") false)) None None 2.

Definition parisDoc : document := [PElem "paragraph" true [PText [] parisBefore]].

Definition parisDocAfter : document :=
  [PElem "paragraph" true [PText [] parisAfter]].

Definition parisAppAfter : AppState :=
  mkApp (Some (mkReview [withStatus parisRecord accepted 2] 70
                 (lit "One issue.") false)) None None 3.

Definition skyDoc : document := [paragraph "The sky is blue."].

Definition skyRecord : Feedback :=
  mkFeedback 1 (lit "The sky is green.") (lit "Cite a source.")
    (lit "The sky appears blue.") verifiability low 0 17 pending.

Definition skyApp : AppState :=
  mkApp (Some (mkReview [skyRecord] 90 (lit "Fine.") true)) None None 2.

Definition blankRecord : Feedback :=
  mkFeedback 1 (lit "  ") (lit "Add a lead sentence.") (lit "Paris is in France. ")
    style low 0 0 pending.

Definition blankApp : AppState :=
  mkApp (Some (mkReview [blankRecord] 50 (lit "One issue.") false)) None None 2.

Definition boldRuns : dom :=
  [DElem "p" [] None
     [DText (lit "ab"); DElem "strong" [] None [DText (lit "cd")]; DText (lit "ef")]].

Definition boldRecord : Feedback :=
  mkFeedback 1 (lit "bcde") [] (lit "x") style high 1 5 pending.

(** * Further parts of the code *)

(** ** The statistics under the editor (Editor.tsx, lines 323-327) *)

(** [Boolean] applied to a string: the empty string is falsy. *)
Definition truthy (s : jstring) : bool :=
  match s with [] => false | _ => true end.

(** [text.split(/\s+/).filter(Boolean).length] *)
Definition wordCount (text : jstring) : nat :=
  length (filter truthy (splitSpaces text)).

(** ** Review, reset and the rest of the application state (App.tsx) *)

(** The state of [App]: the part the accept and highlight effects use,
    and the other state variables. *)
Record App : Type := mkFull
  { core : AppState;
    content : jstring;
    plainText : jstring;
    title : jstring;
    isReviewing : bool;
    isEditorExpanded : bool;
    isFeedbackExpanded : bool }.

(** [handleContentChange] (lines 39-42) *)
Definition handleContentChange (app : App) (html text : jstring) : App :=
  mkFull (core app) html text (title app) (isReviewing app)
    (isEditorExpanded app) (isFeedbackExpanded app).

(** [handleReset] (lines 128-134): the content, the title, the review
    data and the selection are cleared; the record waiting to be accepted
    is not among the variables it sets. *)
Definition handleReset (app : App) : App :=
  mkFull (mkApp None None (feedbackToAccept (core app)) (nextRef (core app)))
    [] [] [] (isReviewing app) (isEditorExpanded app) (isFeedbackExpanded app).

(** The body of the request to the review service. *)
Record ReviewRequest : Type := mkRequest
  { body_content : jstring; body_title : jstring }.

(** [handleReview] up to the [await] (lines 44-64): the guard on blank
    text, the two state updates, and the request. *)
Definition reviewStart (app : App) : App * list Signal * option ReviewRequest :=
  if truthy (trim (plainText app)) then
    (mkFull (core app) (content app) (plainText app) (title app) true
       (isEditorExpanded app) true,
     [],
     Some (mkRequest (plainText app)
             (if truthy (title app) then title app else lit "Untitled Article")))
  else (app, [Alert "Please enter some content to review"], None).

(** What the awaited request comes to. *)
Inductive FetchOutcome : Type :=
| FetchRejected
| ResponseNotOk
| BodyRejected
| ResponseData (data : ReviewResponse).

(** [data.feedbacks.map(fb => ({ ...fb, status: 'pending' }))], with the
    references of the new objects taken from [next]. *)
Fixpoint initPending (fbs : list Feedback) (next : nat) : list Feedback * nat :=
  match fbs with
  | [] => ([], next)
  | fb :: r =>
      let (r', next') := initPending r (S next) in
      (withStatus fb pending next :: r', next')
  end.

Definition reviewFailedSignals : list Signal :=
  [ConsoleError "Error reviewing content:";
   Alert "Failed to review content. Make sure the backend is running."].

(** [handleReview] after the [await] (lines 66-89), applied to the state
    of the application at that moment: the [try] body, the [catch] and the
    [finally]. *)
Definition reviewFinish (app : App) (outcome : FetchOutcome) : App * list Signal :=
  match outcome with
  | ResponseData data =>
      let (feedbacksWithStatus, next) :=
        initPending (feedbacks data) (nextRef (core app)) in
      (mkFull
         (mkApp (Some (mkReview feedbacksWithStatus (overall_score data)
                         (summary data) (is_ready data)))
            (selectedFeedback (core app)) (feedbackToAccept (core app)) next)
         (content app) (plainText app) (title app) false
         (isEditorExpanded app) (isFeedbackExpanded app),
       [])
  | _ =>
      (mkFull (core app) (content app) (plainText app) (title app) false
         (isEditorExpanded app) (isFeedbackExpanded app),
       reviewFailedSignals)
  end.

(** The references of the records in the review data. *)
Definition recordRefs (st : AppState) : list nat :=
  match reviewData st with
  | Some rd => map ref (feedbacks rd)
  | None => []
  end.

(** Every record of the review data is an object of its own, and no
    reference in use is one that a later copy will get. *)
Definition distinctRecords (st : AppState) : Prop :=
  NoDup (recordRefs st) /\
  (forall r, In r (recordRefs st) -> (r < nextRef st)%nat) /\
  (forall fb, selectedFeedback st = Some fb \/ feedbackToAccept st = Some fb ->
              (ref fb < nextRef st)%nat).

(** ** The feedback panel (FeedbackPanel.tsx) *)

Definition pendingFeedbacks (rd : ReviewResponse) : list Feedback :=
  filter isPending (feedbacks rd).

(** The comments the panel lists, each with its two buttons; without
    review data the panel shows its empty state. *)
Definition panelItems (st : AppState) : list Feedback :=
  match reviewData st with
  | Some rd => pendingFeedbacks rd
  | None => []
  end.

(** ** Sample application state *)

Definition recordC : Feedback :=
  mkFeedback 3 (lit "It is big.") (lit "Vague.") (lit "It covers 105 square kilometres.")
    style medium 20 30 accepted.

Definition threeRecords : AppState :=
  mkApp (Some (mkReview [recordA; recordB; recordC] 55 (lit "Three issues.") false))
    (Some recordB) None 4.

(** The state with which [App] starts. *)
Definition initialApp : App :=
  mkFull (mkApp None None None 0) [] [] [] false true true.

(** A marker that belongs to a record of [pool]: its click handler selects
    the record, and it covers the characters of [text] from the record's
    start index up to some offset not past the record's end index. *)
Definition markerOf (pool : list Feedback) (text : jstring)
  (m : option nat * jstring) : Prop :=
  exists fb e,
    In fb pool /\ fst m = Some (ref fb) /\
    start_index fb < e <= end_index fb /\
    snd m = slice (start_index fb) e text.

(** ** The whole-word reading of the locator's policy *)

(** The words of a text: its pieces between runs of whitespace. *)
Definition wordsOf (text : jstring) : list jstring :=
  filter truthy (splitSpaces text).

(** The words of the sentence stand in the text as whole words, one after
    the other. *)
Definition wholeWordsOccur (text sentence : jstring) : Prop :=
  exists before after, wordsOf text = before ++ wordsOf sentence ++ after.

(** The reading of the policy in which the locator matches whole words
    only: wherever the sentence is laid along the words of the text, if
    some word differs, nothing is found. *)
Definition matchesWholeWordsOnly : Prop :=
  forall text sentence,
    ~ wholeWordsOccur text sentence -> locate text sentence = Normal None.

(* ================================================================= *)
(** * Properties *)

Example twoParagraphs_tokens :
  buildTokens twoParagraphs =
  [mkToken [nl] 0 true; mkToken (lit "ab") 1 false;
   mkToken [nl] 4 true; mkToken (lit "cd") 5 false].
Proof. reflexivity. Qed.

Example twoParagraphs_positions :
  map (getPosFromIndex (buildTokens twoParagraphs)) [0; 1; 2; 3; 4; 5; 6; 7]
  = [1; 1; 2; 5; 5; 6; 7; 7].
Proof. reflexivity. Qed.

Example bulletItem_tokens :
  buildTokens bulletItem =
  [mkToken [nl] 0 true; mkToken [nl] 1 true; mkToken [nl] 2 true;
   mkToken (lit "ab") 3 false].
Proof. reflexivity. Qed.

(** ** Strings and joins *)

Lemma jlen_nonneg (s : jstring) : 0 <= jlen s.
Proof. unfold jlen; lia. Qed.

Lemma jlen_app (s t : jstring) : jlen (s ++ t) = jlen s + jlen t.
Proof. unfold jlen; rewrite length_app; lia. Qed.

Lemma join_empty_sep (l : list jstring) : join [] l = concat l.
Proof.
  induction l as [|x r IH]; [reflexivity|].
  destruct r as [|y r'].
  - simpl. now rewrite app_nil_r.
  - change (join [] (x :: y :: r')) with (x ++ [] ++ join [] (y :: r')).
    rewrite IH. reflexivity.
Qed.

(** ** The token sequence of a document is ordered by position *)

Lemma tokenEnd_ge (t : token) : pos t <= tokenEnd t.
Proof.
  unfold tokenEnd. destruct (isVirtual t); pose proof (jlen_nonneg (text t)); lia.
Qed.

Lemma ordered_weaken lo lo' ts : lo' <= lo -> ordered lo ts -> ordered lo' ts.
Proof. destruct ts; simpl; intuition lia. Qed.

Lemma orderedEnd_ge lo ts : ordered lo ts -> lo <= orderedEnd lo ts.
Proof.
  revert lo. induction ts as [|t r IH]; simpl; intros lo H; [lia|].
  destruct H as (H1 & _ & H2). apply IH in H2.
  pose proof (tokenEnd_ge t). lia.
Qed.

Lemma orderedEnd_mono lo lo' ts :
  lo' <= lo -> orderedEnd lo' ts <= orderedEnd lo ts.
Proof. destruct ts; simpl; lia. Qed.

Lemma ordered_app lo a b :
  ordered lo a -> ordered (orderedEnd lo a) b -> ordered lo (a ++ b).
Proof.
  revert lo. induction a as [|t r IH]; simpl; intros lo Ha Hb; [assumption|].
  destruct Ha as (H1 & H2 & H3). repeat split; auto.
Qed.

Lemma orderedEnd_app lo a b :
  orderedEnd lo (a ++ b) = orderedEnd (orderedEnd lo a) b.
Proof. revert lo. induction a as [|t r IH]; simpl; intros; auto. Qed.

Lemma nodeSize_elem n b c : nodeSize (PElem n b c) = 2 + fragmentSize c.
Proof.
  reflexivity.
Qed.

Lemma nodesFrom_elem n b c p :
  nodesFrom (PElem n b c) p = (PElem n b c, p) :: fragmentFrom c (p + 1).
Proof.
  reflexivity.
Qed.

Lemma nodeSize_nonneg n : 0 <= nodeSize n.
Proof.
  induction n as [m s|a b|a b c IH] using pmnode_tree_ind.
  - apply jlen_nonneg.
  - simpl; lia.
  - rewrite nodeSize_elem.
    assert (0 <= fragmentSize c); [|lia].
    induction IH; simpl; lia.
Qed.

Lemma node_tokens_ordered n :
  forall p,
    ordered p (flat_map pushToken (nodesFrom n p)) /\
    orderedEnd p (flat_map pushToken (nodesFrom n p)) <= p + nodeSize n.
Proof.
  induction n as [m s|a b|a b c IH] using pmnode_tree_ind; intros p.
  - simpl. unfold tokenWf, tokenEnd; simpl. repeat split; try lia; discriminate.
  - simpl. destruct b; simpl; unfold tokenWf, tokenEnd; simpl;
      repeat split; auto; lia.
  - rewrite nodesFrom_elem, nodeSize_elem.
    assert (Hc : forall q,
               ordered q (flat_map pushToken (fragmentFrom c q)) /\
               orderedEnd q (flat_map pushToken (fragmentFrom c q))
               <= q + fragmentSize c).
    { induction IH as [|k r Hk _ IHr]; intros q; simpl; [split; [exact I|lia]|].
      rewrite flat_map_app, orderedEnd_app.
      destruct (Hk q) as [Hk1 Hk2].
      destruct (IHr (q + nodeSize k)) as [Hr1 Hr2].
      assert (Hr1' : ordered (orderedEnd q (flat_map pushToken (nodesFrom k q)))
                       (flat_map pushToken (fragmentFrom r (q + nodeSize k))))
        by (eapply ordered_weaken; eassumption).
      split.
      - apply ordered_app; assumption.
      - pose proof (orderedEnd_mono (q + nodeSize k) _
                      (flat_map pushToken (fragmentFrom r (q + nodeSize k))) Hk2).
        lia. }
    destruct (Hc (p + 1)) as [H1 H2].
    cbn [flat_map pushToken isText nodeIsBlock].
    destruct b; cbn [app ordered orderedEnd].
    + unfold tokenWf, tokenEnd; cbn [isVirtual pos text].
      repeat split; auto; lia.
    + split.
      * eapply ordered_weaken; [|exact H1]. lia.
      * pose proof (orderedEnd_mono (p + 1) p
                      (flat_map pushToken (fragmentFrom c (p + 1)))).
        lia.
Qed.

Lemma buildTokens_ordered (doc : document) : ordered 0 (buildTokens doc).
Proof.
  unfold buildTokens, descendants.
  assert (H : forall q, ordered q (flat_map pushToken (fragmentFrom doc q))).
  { induction doc as [|k r IH]; intros q; simpl; [exact I|].
    rewrite flat_map_app.
    destruct (node_tokens_ordered k q) as [H1 H2].
    apply ordered_app; [assumption|].
    eapply ordered_weaken; [exact H2|apply IH]. }
  apply H.
Qed.

(** ** Position mapping over an ordered token sequence *)

Lemma scanTokens_tokenAt ts k c :
  scanTokens ts k c =
  match tokenAt ts k c with
  | Some (tok, cl, _) =>
      Some (if isVirtual tok then pos tok + 1 else pos tok + (k - cl))
  | None => None
  end.
Proof.
  revert c. induction ts as [|t r IH]; intros c; simpl; [reflexivity|].
  destruct (k <? c + jlen (text t)); [|apply IH].
  destruct (isVirtual t); reflexivity.
Qed.

Lemma scanTokens_lower lo ts k c p :
  ordered lo ts -> c <= k -> scanTokens ts k c = Some p -> lo <= p.
Proof.
  revert lo c. induction ts as [|t r IH]; intros lo c Ho Hc; simpl; [discriminate|].
  destruct Ho as (H1 & _ & H3).
  destruct (Z.ltb_spec k (c + jlen (text t))) as [Hlt|Hge].
  - destruct (isVirtual t); intros [= <-]; lia.
  - intros Hs. apply (IH _ _ H3) in Hs; [|lia].
    pose proof (tokenEnd_ge t). lia.
Qed.

Lemma endOfLast_single t : endOfLast [t] = pos t + jlen (text t).
Proof. reflexivity. Qed.

Lemma endOfLast_cons t t' r : endOfLast (t :: t' :: r) = endOfLast (t' :: r).
Proof. reflexivity. Qed.

Lemma endOfLast_orderedEnd lo t r :
  ordered lo (t :: r) -> endOfLast (t :: r) = orderedEnd lo (t :: r).
Proof.
  revert lo t. induction r as [|t' r IH]; intros lo t Ho.
  - simpl. destruct Ho as (_ & Hwf & _).
    rewrite endOfLast_single. unfold tokenEnd, tokenWf in *.
    destruct (isVirtual t); [|reflexivity].
    rewrite (Hwf eq_refl). reflexivity.
  - rewrite endOfLast_cons.
    destruct Ho as (_ & _ & Ho').
    rewrite (IH _ _ Ho'). reflexivity.
Qed.

Lemma resolveFrom_monotone ts :
  forall lo c d a b,
    ordered lo ts -> orderedEnd lo ts <= d -> a <= b ->
    resolveFrom ts a c d <= resolveFrom ts b c d.
Proof.
  unfold resolveFrom.
  induction ts as [|t r IH]; intros lo c d a b Ho Hd Hab; simpl; [lia|].
  destruct Ho as (H1 & Hwf & H3). simpl in Hd.
  pose proof (orderedEnd_ge _ _ H3) as Hend.
  destruct (Z.ltb_spec a (c + jlen (text t))) as [Ha|Ha];
    destruct (Z.ltb_spec b (c + jlen (text t))) as [Hb|Hb]; try lia.
  - destruct (isVirtual t); lia.
  - assert (Hpa : (if isVirtual t then pos t + 1 else pos t + (a - c)) <= tokenEnd t).
    { unfold tokenEnd. destruct (isVirtual t); lia. }
    destruct (scanTokens r b (c + jlen (text t))) as [p|] eqn:Hs.
    + apply (scanTokens_lower _ _ _ _ _ H3) in Hs; [|lia].
      destruct (isVirtual t); lia.
    + destruct (isVirtual t); lia.
  - apply (IH (tokenEnd t)); auto.
Qed.

Lemma getPosFromIndex_monotone lo ts a b :
  ordered lo ts -> a <= b -> getPosFromIndex ts a <= getPosFromIndex ts b.
Proof.
  intros Ho Hab. destruct ts as [|t r]; [reflexivity|].
  change (resolveFrom (t :: r) a 0 (endOfLast (t :: r))
          <= resolveFrom (t :: r) b 0 (endOfLast (t :: r))).
  apply (resolveFrom_monotone _ lo); auto.
  rewrite (endOfLast_orderedEnd lo); auto. lia.
Qed.

Lemma scanTokens_none_iff ts k c :
  c <= k ->
  (scanTokens ts k c = None <-> c + jlen (concat (map text ts)) <= k).
Proof.
  revert c. induction ts as [|t r IH]; intros c Hc; simpl.
  - unfold jlen; simpl. split; [lia|reflexivity].
  - rewrite jlen_app.
    destruct (Z.ltb_spec k (c + jlen (text t))) as [Hlt|Hge].
    + pose proof (jlen_nonneg (concat (map text r))).
      destruct (isVirtual t); split; (discriminate || lia).
    + rewrite IH by lia. lia.
Qed.

Lemma scanTokens_inside pre t post k c :
  isVirtual t = false -> 0 <= k < jlen (text t) ->
  scanTokens (pre ++ t :: post) (c + jlen (concat (map text pre)) + k) c
  = Some (pos t + k).
Proof.
  intros Hv Hk. revert c. induction pre as [|u pre IH]; intros c; simpl.
  - change (jlen []) with 0.
    match goal with |- context [?a <? ?b] => destruct (Z.ltb_spec a b) end; [|lia].
    rewrite Hv. f_equal. lia.
  - rewrite jlen_app.
    pose proof (jlen_nonneg (concat (map text pre))).
    pose proof (jlen_nonneg (text u)).
    match goal with |- context [?a <? ?b] => destruct (Z.ltb_spec a b) end; [lia|].
    rewrite <- (IH (c + jlen (text u))). f_equal. lia.
Qed.

Lemma nth_error_inside (pre t post : jstring) (k : nat) :
  (k < length t)%nat ->
  nth_error (pre ++ t ++ post) (length pre + k) = nth_error t k.
Proof.
  intros Hk.
  rewrite nth_error_app2 by lia.
  replace (length pre + k - length pre)%nat with k by lia.
  now rewrite nth_error_app1.
Qed.

(** C5.  The concatenation of the token texts, in order, is the flat
    text built with them; the scan of the position mapping runs off its
    end exactly at the length of that string, and inside a real token the
    offset into the flat text and the offset into the token's text name
    the same character and the position of that character. *)
Theorem flat_text_is_token_concat (D : document) :
  let tokens := buildTokens D in
  concat (map text tokens) = fullText tokens /\
  (forall k, 0 <= k ->
     (scanTokens tokens k 0 = None <-> jlen (fullText tokens) <= k)) /\
  (forall pre t post k,
     tokens = pre ++ t :: post -> isVirtual t = false ->
     0 <= k < jlen (text t) ->
     getPosFromIndex tokens (jlen (fullText pre) + k) = pos t + k /\
     nth_error (fullText tokens) (Z.to_nat (jlen (fullText pre) + k))
     = nth_error (text t) (Z.to_nat k)).
Proof.
  intros tokens. unfold fullText. split; [|split].
  - symmetry. apply join_empty_sep.
  - intros k Hk. rewrite join_empty_sep.
    rewrite scanTokens_none_iff by lia. lia.
  - intros pre t post k Hts Hv Hk. rewrite !join_empty_sep. split.
    + unfold getPosFromIndex. rewrite Hts.
      change (jlen (concat (map text pre)) + k)
        with (0 + jlen (concat (map text pre)) + k).
      now rewrite scanTokens_inside.
    + rewrite Hts, map_app, concat_app. simpl.
      unfold jlen in *. rewrite Z2Nat.inj_add, Nat2Z.id by lia.
      apply nth_error_inside. lia.
Qed.

(** C6.  Over the tokens of any document the mapping from a flat-text
    offset to a document position is monotonically non-decreasing. *)
Theorem positionFromOffset_monotone (D : document) (a b : Z) :
  a <= b ->
  getPosFromIndex (buildTokens D) a <= getPosFromIndex (buildTokens D) b.
Proof.
  apply (getPosFromIndex_monotone 0). apply buildTokens_ordered.
Qed.

Lemma positionFromOffset_monotone_witness :
  2 <= 3 /\
  getPosFromIndex (buildTokens twoParagraphs) 2
  <= getPosFromIndex (buildTokens twoParagraphs) 3.
Proof.
  split; [lia|]. apply (positionFromOffset_monotone twoParagraphs 2 3). lia.
Defined.

(** ** Offsets on virtual tokens and past the end *)

Example bulletItem_first_offset :
  getPosFromIndex (buildTokens bulletItem) 0 = 1 /\
  tokenAt (buildTokens bulletItem) 0 0
  = Some (mkToken [nl] 0 true, 0,
          [mkToken [nl] 1 true; mkToken [nl] 2 true; mkToken (lit "ab") 3 false]) /\
  followingRealStart
    [mkToken [nl] 1 true; mkToken [nl] 2 true; mkToken (lit "ab") 3 false]
  = Some 3.
Proof. repeat split. Qed.

(** C7, as stated, fails: in a bullet list the first offset lies on the
    virtual token of the list; it is mapped to position 1, inside the list
    and before the list item, while the text that follows starts at
    position 3. *)
Lemma virtual_offset_not_following_content :
  ~ virtualMapsToFollowingContent (buildTokens bulletItem) 0.
Proof.
  intros H.
  specialize (H (mkToken [nl] 0 true) 0
                [mkToken [nl] 1 true; mkToken [nl] 2 true;
                 mkToken (lit "ab") 3 false] eq_refl eq_refl).
  discriminate H.
Qed.

Lemma tokenAt_split ts k c tok cl rest :
  tokenAt ts k c = Some (tok, cl, rest) ->
  exists pre, ts = pre ++ tok :: rest.
Proof.
  revert c. induction ts as [|t r IH]; intros c; simpl; [discriminate|].
  destruct (k <? c + jlen (text t)).
  - intros [= -> <- <-]. now exists [].
  - intros H. destruct (IH _ H) as [pre ->]. now exists (t :: pre).
Qed.

Lemma ordered_app_inv lo a b :
  ordered lo (a ++ b) -> ordered (orderedEnd lo a) b.
Proof.
  revert lo. induction a as [|t r IH]; simpl; intros lo H; [assumption|].
  apply IH. tauto.
Qed.

(** C7, amended.  An offset inside a virtual token maps to the position
    of that token plus one.  When the next token is a text run that starts
    right there, this is the start of the following real content.  Over the
    tokens of a document it is never past the start of the next token.  An
    offset at or past the length of the flat text maps to the end of the
    last token, and to 0 when there is no token. *)
Theorem virtual_and_past_end_positions (ts : list token) (k : Z) :
  (forall tok c rest,
      tokenAt ts k 0 = Some (tok, c, rest) -> isVirtual tok = true ->
      getPosFromIndex ts k = pos tok + 1 /\
      getPosFromIndex ts k <> pos tok /\
      (forall nxt rest',
          rest = nxt :: rest' -> isVirtual nxt = false ->
          pos nxt = pos tok + 1 ->
          followingRealStart rest = Some (getPosFromIndex ts k)) /\
      (forall D nxt rest',
          ts = buildTokens D -> rest = nxt :: rest' ->
          getPosFromIndex ts k <= pos nxt)) /\
  (jlen (fullText ts) <= k ->
   getPosFromIndex ts k = endOfLast ts /\
   (ts = [] -> getPosFromIndex ts k = 0) /\
   (forall pre l, ts = pre ++ [l] ->
                  getPosFromIndex ts k = pos l + jlen (text l))).
Proof.
  split.
  - intros tok c rest Hat Hv.
    assert (Hp : getPosFromIndex ts k = pos tok + 1).
    { unfold getPosFromIndex. rewrite scanTokens_tokenAt, Hat, Hv. reflexivity. }
    rewrite Hp. repeat split; try lia.
    + intros nxt rest' -> Hn Hpos. unfold followingRealStart. simpl.
      rewrite Hn. simpl. now rewrite Hpos.
    + intros D nxt rest' HD ->.
      destruct (tokenAt_split _ _ _ _ _ _ Hat) as [pre Hts].
      pose proof (buildTokens_ordered D) as Ho. rewrite <- HD, Hts in Ho.
      apply ordered_app_inv in Ho. simpl in Ho.
      destruct Ho as (_ & _ & Hn & _). unfold tokenEnd in Hn.
      rewrite Hv in Hn. lia.
  - intros Hlen.
    assert (Hk : 0 <= k) by (pose proof (jlen_nonneg (fullText ts)); lia).
    assert (Hp : getPosFromIndex ts k = endOfLast ts).
    { unfold getPosFromIndex.
      replace (scanTokens ts k 0) with (@None Z); [reflexivity|].
      symmetry. apply scanTokens_none_iff; [lia|].
      unfold fullText in Hlen. rewrite join_empty_sep in Hlen. lia. }
    rewrite Hp. repeat split.
    + intros ->. reflexivity.
    + intros pre l ->. unfold endOfLast. rewrite map_app. simpl.
      now rewrite last_last.
Qed.

Lemma virtual_and_past_end_positions_witness :
  getPosFromIndex (buildTokens twoParagraphs) 3 = 4 + 1 /\
  followingRealStart [mkToken (lit "cd") 5 false]
  = Some (getPosFromIndex (buildTokens twoParagraphs) 3) /\
  getPosFromIndex (buildTokens twoParagraphs) 9 = 5 + 2.
Proof.
  pose proof (virtual_and_past_end_positions (buildTokens twoParagraphs) 3)
    as [H3 _].
  pose proof (virtual_and_past_end_positions (buildTokens twoParagraphs) 9)
    as [_ H9].
  specialize (H3 (mkToken [nl] 4 true) 3 [mkToken (lit "cd") 5 false]
                eq_refl eq_refl).
  destruct H3 as (Ha & _ & Hb & _).
  specialize (Hb (mkToken (lit "cd") 5 false) [] eq_refl eq_refl eq_refl).
  destruct H9 as (_ & _ & Hc); [vm_compute; discriminate|].
  specialize (Hc [mkToken [nl] 0 true; mkToken (lit "ab") 1 false;
                  mkToken [nl] 4 true] (mkToken (lit "cd") 5 false) eq_refl).
  repeat split; assumption.
Defined.

(** ** The locator *)

Example split_examples :
  splitSpaces (lit "a  b") = [lit "a"; lit "b"] /\
  splitSpaces (lit " a") = [[]; lit "a"] /\
  splitSpaces (lit "a ") = [lit "a"; []] /\
  splitSpaces [] = [[]] /\
  sentenceParts (lit "  The sky   is blue. ") = [lit "The"; lit "sky"; lit "is"; lit "blue."].
Proof. repeat split. Qed.

Example pattern_example :
  sentencePattern (lit "Is it (a+b)?") = lit "Is\s+it\s+\(a\+b\)\?".
Proof. reflexivity. Qed.

Example locate_strict :
  locate (lit "The sky is blue.") (lit "The sky is green.") = Normal None.
Proof. reflexivity. Qed.

Example locate_tolerant :
  locate (lit "Climate   change" ++ [nl] ++ lit "is important.")
         (lit "Climate change is important.") = Normal (Some (0, 30)).
Proof. reflexivity. Qed.

(** *** The pattern source parses to the items of the parts *)

Lemma syntaxChar_not_s c : isSyntaxChar c = true -> N.eqb c letter_s = false.
Proof.
  intros H. destruct (N.eqb_spec c letter_s) as [->|]; [discriminate H|reflexivity].
Qed.

Lemma plainChar_not_backslash c :
  isSyntaxChar c = false -> N.eqb c backslash = false.
Proof.
  intros H. destruct (N.eqb_spec c backslash) as [->|]; [discriminate H|reflexivity].
Qed.

Lemma parse_escaped w rest items :
  parseRegExp rest = Some items ->
  parseRegExp (escapeRegExp w ++ rest) = Some (map RChar w ++ items).
Proof.
  intros Hrest. induction w as [|c w IH]; [assumption|].
  unfold escapeRegExp in *. cbn [flat_map map app].
  destruct (isSyntaxChar c) eqn:Hc.
  - cbn [app parseRegExp].
    change (N.eqb backslash backslash) with true. cbv iota.
    rewrite (syntaxChar_not_s _ Hc), Hc, IH. reflexivity.
  - cbn [app parseRegExp].
    rewrite (plainChar_not_backslash _ Hc), Hc, IH. reflexivity.
Qed.

Lemma parse_space_plus rest :
  parseRegExp (lit "\s+" ++ rest) = option_map (cons RSpacePlus) (parseRegExp rest).
Proof. reflexivity. Qed.

Lemma parse_join ws :
  parseRegExp (join (lit "\s+") (map escapeRegExp ws)) = Some (wordsItems ws).
Proof.
  induction ws as [|w r IH]; [reflexivity|].
  destruct r as [|w' r'].
  - cbn [map join wordsItems].
    rewrite <- (app_nil_r (escapeRegExp w)), <- (app_nil_r (map RChar w)).
    now apply parse_escaped.
  - change (join (lit "\s+") (map escapeRegExp (w :: w' :: r')))
      with (escapeRegExp w ++ lit "\s+" ++ join (lit "\s+") (map escapeRegExp (w' :: r'))).
    change (wordsItems (w :: w' :: r'))
      with (map RChar w ++ RSpacePlus :: wordsItems (w' :: r')).
    apply parse_escaped. rewrite parse_space_plus, IH. reflexivity.
Qed.

Lemma newRegExp_pattern sentence :
  newRegExp (sentencePattern sentence) = Normal (wordsItems (sentenceParts sentence)).
Proof. unfold newRegExp, sentencePattern. now rewrite parse_join. Qed.

(** *** The matcher against the strings the items denote *)

Lemma matchHere_space_unfold rest s :
  matchHere (RSpacePlus :: rest) s =
  match s with
  | d :: s' =>
      if isWhitespace d then
        match matchHere (RSpacePlus :: rest) s' with
        | Some n => Some (S n)
        | None => option_map S (matchHere rest s')
        end
      else None
  | [] => None
  end.
Proof. destruct s; reflexivity. Qed.

Lemma itemsMatch_space_cons r d m :
  isWhitespace d = true -> itemsMatch (RSpacePlus :: r) m ->
  itemsMatch (RSpacePlus :: r) (d :: m).
Proof.
  intros Hd H. inversion H as [| |r' sep s' Hne Hall Hm]; subst.
  change (itemsMatch (RSpacePlus :: r) ((d :: sep) ++ s')).
  constructor; [discriminate| simpl; now rewrite Hd |assumption].
Qed.

Lemma matchHere_sound items :
  forall s n, matchHere items s = Some n ->
              (n <= length s)%nat /\ itemsMatch items (firstn n s).
Proof.
  induction items as [|it rest IH]; intros s n.
  - simpl. intros [= <-]. split; [lia|constructor].
  - destruct it as [c|].
    + destruct s as [|d s']; simpl; [discriminate|].
      destruct (N.eqb_spec c d) as [->|]; [|discriminate].
      destruct (matchHere rest s') as [n'|] eqn:Hm; [|discriminate].
      intros [= <-]. destruct (IH _ _ Hm). simpl. split; [lia|now constructor].
    + revert n. induction s as [|d s' IHs]; intros n; rewrite matchHere_space_unfold;
        [discriminate|].
      destruct (isWhitespace d) eqn:Hd; [|discriminate].
      destruct (matchHere (RSpacePlus :: rest) s') as [n'|] eqn:Hrun.
      * intros [= <-]. destruct (IHs _ eq_refl). simpl. split; [lia|].
        now apply itemsMatch_space_cons.
      * destruct (matchHere rest s') as [n'|] eqn:Hm; [|discriminate].
        intros [= <-]. destruct (IH _ _ Hm). simpl. split; [lia|].
        change (itemsMatch (RSpacePlus :: rest) ([d] ++ firstn n' s')).
        constructor; [discriminate| simpl; now rewrite Hd |assumption].
Qed.

Lemma matchHere_complete items m :
  itemsMatch items m ->
  forall post, exists n, matchHere items (m ++ post) = Some n.
Proof.
  induction 1 as [|c r s _ IH|r sep s Hne Hall _ IH]; intros post.
  - now exists 0%nat.
  - destruct (IH post) as [n Hn]. exists (S n). simpl.
    now rewrite N.eqb_refl, Hn.
  - rewrite <- app_assoc.
    induction sep as [|d sep IHsep]; [congruence|].
    simpl in Hall. apply andb_prop in Hall as [Hd Hall].
    cbn [app]. rewrite matchHere_space_unfold, Hd.
    destruct sep as [|d' sep'].
    + cbn [app]. destruct (matchHere (RSpacePlus :: r) (s ++ post)); [eauto|].
      destruct (IH post) as [n ->]. simpl; eauto.
    + destruct IHsep as [n ->]; [discriminate|assumption|eauto].
Qed.

Lemma itemsMatch_chars w items m :
  itemsMatch (map RChar w ++ items) m <->
  exists m', m = w ++ m' /\ itemsMatch items m'.
Proof.
  revert m. induction w as [|c w IH]; intros m; simpl.
  - split; [eauto|]. now intros (m' & -> & H).
  - split.
    + intros H. inversion H as [|c' r s Hs|]; subst.
      apply IH in Hs as (m' & -> & Hm). eauto.
    + intros (m' & -> & Hm). constructor. apply IH. eauto.
Qed.

Lemma itemsMatch_words ws m :
  ws <> [] -> (itemsMatch (wordsItems ws) m <-> wordsMatch ws m).
Proof.
  revert m. induction ws as [|w r IH]; intros m Hne; [congruence|].
  destruct r as [|w' r'].
  - cbn [wordsItems]. rewrite <- (app_nil_r (map RChar w)), itemsMatch_chars.
    split.
    + intros (m' & -> & Hm). inversion Hm. rewrite app_nil_r. constructor.
    + intros H. inversion H; subst.
      * exists []. rewrite app_nil_r. split; [reflexivity|constructor].
      * congruence.
  - change (wordsItems (w :: w' :: r'))
      with (map RChar w ++ RSpacePlus :: wordsItems (w' :: r')).
    rewrite itemsMatch_chars. split.
    + intros (m' & -> & Hm). inversion Hm as [| |r0 sep s Hs1 Hs2 Hs3]; subst.
      constructor; auto; [discriminate|]. apply IH; [discriminate|assumption].
    + intros H. inversion H as [|w0 sep ws0 rest Hs1 Hs2 Hs3 Hs4]; subst.
      exists (sep ++ rest). split; [reflexivity|].
      constructor; auto. apply IH; [discriminate|assumption].
Qed.

(** *** The search *)

Lemma exec_some items s idx i n :
  exec items s idx = Some (i, n) ->
  exists pre rest,
    s = pre ++ rest /\ i = (idx + length pre)%nat /\
    matchHere items rest = Some n /\
    (forall pre' rest', s = pre' ++ rest' -> (length pre' < length pre)%nat ->
                        matchHere items rest' = None).
Proof.
  revert idx. induction s as [|c s IH]; intros idx; simpl.
  - destruct (matchHere items []) as [n'|] eqn:Hm; [|discriminate].
    intros [= <- <-]. exists [], []. repeat split; auto.
    simpl; intros; lia.
  - destruct (matchHere items (c :: s)) as [n'|] eqn:Hm.
    + intros [= <- <-]. exists [], (c :: s). repeat split; auto.
      simpl; intros; lia.
    + intros H. apply IH in H as (pre & rest & -> & -> & Hrest & Hmin).
      exists (c :: pre), rest. simpl.
      split; [reflexivity|split; [lia|split; [assumption|]]].
      intros pre' rest' Heq Hlen. destruct pre' as [|c' pre'].
      * simpl in Heq. now rewrite <- Heq.
      * simpl in Heq, Hlen. injection Heq as _ Heq.
        apply (Hmin pre'); [assumption|lia].
Qed.

Lemma exec_none items s idx :
  exec items s idx = None ->
  forall pre rest, s = pre ++ rest -> matchHere items rest = None.
Proof.
  revert idx. induction s as [|c s IH]; intros idx; simpl.
  - destruct (matchHere items []) eqn:Hm; [discriminate|].
    intros _ pre rest Heq. symmetry in Heq. apply app_eq_nil in Heq as [_ ->].
    assumption.
  - destruct (matchHere items (c :: s)) eqn:Hm; [discriminate|].
    intros H pre rest Heq. destruct pre as [|c' pre].
    + simpl in Heq. now rewrite <- Heq.
    + injection Heq as _ Heq. eapply IH; eassumption.
Qed.

Lemma splitSpaces_nonempty s : splitSpaces s <> [].
Proof.
  induction s as [|c r IH]; simpl; [discriminate|].
  destruct (isWhitespace c).
  - destruct (startsWithSpace r); [assumption|discriminate].
  - destruct (splitSpaces r); discriminate.
Qed.

(** *** The parts of a trimmed sentence *)

Lemma startsWithSpace_trimStart s : startsWithSpace (trimStart s) = false.
Proof.
  induction s as [|c r IH]; simpl; [reflexivity|].
  destruct (isWhitespace c) eqn:Hc; [assumption|]. simpl. assumption.
Qed.

Lemma trimStart_suffix s : exists sp, s = sp ++ trimStart s.
Proof.
  induction s as [|c r [sp IH]]; simpl; [now exists []|].
  destruct (isWhitespace c).
  - exists (c :: sp). simpl. now f_equal.
  - now exists [].
Qed.

Lemma endsWithSpace_snoc s c : endsWithSpace (s ++ [c]) = isWhitespace c.
Proof.
  induction s as [|d s IH]; [reflexivity|].
  simpl. destruct (s ++ [c]) eqn:E; [now destruct s|assumption].
Qed.

Lemma endsWithSpace_rev s : endsWithSpace (rev s) = startsWithSpace s.
Proof.
  destruct s as [|c r]; [reflexivity|]. simpl. apply endsWithSpace_snoc.
Qed.

Lemma trim_ends sentence :
  startsWithSpace (trim sentence) = false /\ endsWithSpace (trim sentence) = false.
Proof.
  unfold trim, trimEnd. split.
  - pose proof (startsWithSpace_trimStart sentence) as Hs.
    destruct (trimStart_suffix (rev (trimStart sentence))) as [sp Hsp].
    apply (f_equal (@rev codeUnit)) in Hsp. rewrite rev_involutive, rev_app_distr in Hsp.
    destruct (rev (trimStart (rev (trimStart sentence)))) as [|c t]; [reflexivity|].
    rewrite Hsp in Hs. exact Hs.
  - rewrite endsWithSpace_rev. apply startsWithSpace_trimStart.
Qed.

Lemma splitSpaces_noSpace s : Forall (fun w => noSpace w = true) (splitSpaces s).
Proof.
  induction s as [|c r IH]; simpl; [repeat constructor|].
  destruct (isWhitespace c) eqn:Hc.
  - destruct (startsWithSpace r); [assumption|]. constructor; [reflexivity|assumption].
  - destruct (splitSpaces r) as [|w ws].
    + repeat constructor. simpl. now rewrite Hc.
    + inversion IH; subst. constructor; [|assumption].
      simpl. now rewrite Hc.
Qed.

Lemma splitSpaces_tail_nonempty s :
  endsWithSpace s = false ->
  Forall (fun w => w <> []) (tl (splitSpaces s)) /\
  (startsWithSpace s = false -> s <> [] ->
   Forall (fun w => w <> []) (splitSpaces s)).
Proof.
  induction s as [|c r IH]; intros He.
  - simpl. split; [constructor|congruence].
  - assert (Her : r <> [] -> endsWithSpace r = false).
    { intros Hr. destruct r; [congruence|exact He]. }
    cbn [splitSpaces startsWithSpace].
    destruct (isWhitespace c) eqn:Hc.
    + split; [|discriminate].
      destruct r as [|c' r'].
      * simpl in He. congruence.
      * destruct (IH (Her ltac:(discriminate))) as [IH1 IH2].
        destruct (startsWithSpace (c' :: r')) eqn:Hs; [assumption|].
        cbn [tl]. apply IH2; [reflexivity|discriminate].
    + assert (Ht : Forall (fun w => w <> []) (tl (splitSpaces r))).
      { destruct r as [|c' r']; [simpl; constructor|].
        apply IH, Her. discriminate. }
      destruct (splitSpaces r) as [|w ws]; cbn [tl] in *.
      * split; [constructor|]. intros _ _. repeat constructor. discriminate.
      * split; [assumption|]. intros _ _. constructor; [discriminate|assumption].
Qed.

Lemma sentenceParts_words sentence :
  Forall (fun w => noSpace w = true) (sentenceParts sentence) /\
  (trim sentence <> [] -> Forall (fun w => w <> []) (sentenceParts sentence)).
Proof.
  unfold sentenceParts. split; [apply splitSpaces_noSpace|].
  intros Hne. destruct (trim_ends sentence) as [Hs He].
  now apply splitSpaces_tail_nonempty.
Qed.

(** *** A matched span splits back into the parts *)

Lemma splitSpaces_word_app w x :
  noSpace w = true ->
  splitSpaces (w ++ x) =
  match splitSpaces x with
  | h :: t => (w ++ h) :: t
  | [] => [w]
  end.
Proof.
  intros Hw. induction w as [|c w IH]; simpl.
  - destruct (splitSpaces x) eqn:E; [|reflexivity].
    now destruct (splitSpaces_nonempty x).
  - simpl in Hw. apply andb_prop in Hw as [Hc Hw].
    apply negb_true_iff in Hc. rewrite Hc, (IH Hw).
    destruct (splitSpaces x); reflexivity.
Qed.

Lemma splitSpaces_run_app sep rest :
  sep <> [] -> forallb isWhitespace sep = true -> startsWithSpace rest = false ->
  splitSpaces (sep ++ rest) = [] :: splitSpaces rest.
Proof.
  intros Hne Hall Hr. induction sep as [|d sep IH]; [congruence|].
  simpl in Hall. apply andb_prop in Hall as [Hd Hall].
  cbn [app splitSpaces]. rewrite Hd.
  destruct sep as [|d' sep'].
  - cbn [app]. now rewrite Hr.
  - assert (Hs : startsWithSpace ((d' :: sep') ++ rest) = true).
    { simpl in *. now apply andb_prop in Hall as [-> _]. }
    rewrite Hs. apply IH; [discriminate|assumption].
Qed.

Lemma wordsMatch_head w ws m :
  wordsMatch (w :: ws) m -> exists m', m = w ++ m'.
Proof.
  intros H. inversion H; subst; [exists []; now rewrite app_nil_r|eauto].
Qed.

Lemma noSpace_starts w x :
  noSpace w = true -> w <> [] -> startsWithSpace (w ++ x) = false.
Proof.
  destruct w as [|c w]; [congruence|]. simpl.
  intros H _. apply andb_prop in H as [H _]. now apply negb_true_iff in H.
Qed.

Lemma wordsMatch_split ws m :
  wordsMatch ws m ->
  Forall (fun w => noSpace w = true) ws -> Forall (fun w => w <> []) ws ->
  splitSpaces m = ws.
Proof.
  induction 1 as [w|w sep ws rest Hne Hall Hws Hm IH]; intros Hns Hnz.
  - inversion Hns; subst.
    rewrite <- (app_nil_r w) at 1.
    rewrite splitSpaces_word_app by assumption. simpl. now rewrite app_nil_r.
  - inversion Hns as [|? ? Hw Hns']; inversion Hnz as [|? ? _ Hnz']; subst.
    rewrite splitSpaces_word_app by assumption.
    assert (Hr : startsWithSpace rest = false).
    { destruct ws as [|w2 ws2]; [congruence|].
      destruct (wordsMatch_head _ _ _ Hm) as [m' ->].
      inversion Hns'; inversion Hnz'; subst. now apply noSpace_starts. }
    rewrite splitSpaces_run_app by assumption.
    rewrite app_nil_r, IH by assumption. reflexivity.
Qed.

(** *** At one start there is one matching span *)

Lemma space_run_unique (sep1 sep2 x1 x2 : jstring) :
  forallb isWhitespace sep1 = true -> forallb isWhitespace sep2 = true ->
  x1 <> [] -> startsWithSpace x1 = false ->
  x2 <> [] -> startsWithSpace x2 = false ->
  sep1 ++ x1 = sep2 ++ x2 -> sep1 = sep2 /\ x1 = x2.
Proof.
  revert sep2. induction sep1 as [|d sep1 IH]; intros sep2 H1 H2 Hx1 Hs1 Hx2 Hs2 Heq.
  - destruct sep2 as [|e sep2]; [now split|].
    simpl in *. subst x1. simpl in Hs1.
    apply andb_prop in H2 as [He _]. congruence.
  - destruct sep2 as [|e sep2].
    + simpl in *. subst x2. simpl in Hs2.
      apply andb_prop in H1 as [Hd _]. congruence.
    + simpl in *. injection Heq as <- Heq.
      apply andb_prop in H1 as [_ H1]. apply andb_prop in H2 as [_ H2].
      destruct (IH sep2 H1 H2 Hx1 Hs1 Hx2 Hs2 Heq) as [-> ->]. now split.
Qed.

Lemma wordsMatch_starts w ws m p :
  wordsMatch (w :: ws) m -> noSpace w = true -> w <> [] ->
  m ++ p <> [] /\ startsWithSpace (m ++ p) = false.
Proof.
  intros Hm Hw Hne. destruct (wordsMatch_head _ _ _ Hm) as [m' ->].
  rewrite <- app_assoc. split; [|now apply noSpace_starts].
  destruct w; [congruence|discriminate].
Qed.

Lemma wordsMatch_unique ws m1 :
  wordsMatch ws m1 ->
  forall m2 p1 p2,
    wordsMatch ws m2 ->
    Forall (fun w => noSpace w = true) ws -> Forall (fun w => w <> []) ws ->
    m1 ++ p1 = m2 ++ p2 -> m1 = m2.
Proof.
  induction 1 as [w|w sep ws rest Hne Hall Hws Hm IH];
    intros m2 p1 p2 Hm2 Hns Hnz Heq.
  - inversion Hm2; subst; [reflexivity|congruence].
  - inversion Hm2 as [|w0 sep2 ws0 rest2 Hne2 Hall2 _ Hm2']; subst; [congruence|].
    inversion Hns as [|? ? _ Hns']; inversion Hnz as [|? ? _ Hnz']; subst.
    rewrite <- !app_assoc in Heq. apply app_inv_head in Heq.
    destruct ws as [|w2 ws2]; [congruence|].
    inversion Hns' as [|? ? Hw2 _]; inversion Hnz' as [|? ? Hw2' _]; subst.
    destruct (wordsMatch_starts _ _ _ p1 Hm Hw2 Hw2') as [Ha1 Ha2].
    destruct (wordsMatch_starts _ _ _ p2 Hm2' Hw2 Hw2') as [Hb1 Hb2].
    destruct (space_run_unique _ _ _ _ Hall Hall2 Ha1 Ha2 Hb1 Hb2 Heq) as [-> Hrest].
    now rewrite (IH _ _ _ Hm2' Hns' Hnz' Hrest).
Qed.

Lemma same_length_prefix {A} (pre pre' rest rest' : list A) :
  pre ++ rest = pre' ++ rest' -> length pre = length pre' ->
  pre = pre' /\ rest = rest'.
Proof.
  revert pre'. induction pre as [|x pre IH]; intros [|y pre'] Heq Hlen;
    simpl in *; try discriminate.
  - now split.
  - injection Heq as -> Heq. injection Hlen as Hlen.
    destruct (IH _ Heq Hlen) as [-> ->]. now split.
Qed.

(** *** The locator returns the first matching span *)

(** C2, as stated, fails at "whenever any word differs".  The pattern has
    no anchor at word boundaries: the last word of the sentence is found
    as the head of a longer word of the text, and the first word as the
    tail of one, although the words of the sentence are not words of the
    text. *)
Lemma partial_word_is_matched :
  wordsOf (lit "The sky is blueish.")
  = [lit "The"; lit "sky"; lit "is"; lit "blueish."] /\
  wordsOf (lit "The sky is blue") = [lit "The"; lit "sky"; lit "is"; lit "blue"] /\
  ~ wholeWordsOccur (lit "The sky is blueish.") (lit "The sky is blue") /\
  locate (lit "The sky is blueish.") (lit "The sky is blue") = Normal (Some (0, 15)) /\
  locate (lit "The sky is blue.") (lit "he sky is") = Normal (Some (1, 10)) /\
  ~ matchesWholeWordsOnly.
Proof.
  assert (Hno : ~ wholeWordsOccur (lit "The sky is blueish.") (lit "The sky is blue")).
  { intros (before & after & H).
    pose proof (f_equal (@length _) H) as Hlen.
    rewrite !length_app in Hlen.
    change (length (wordsOf (lit "The sky is blueish."))) with 4%nat in Hlen.
    change (length (wordsOf (lit "The sky is blue"))) with 4%nat in Hlen.
    destruct before as [|b before]; [|simpl in Hlen; lia].
    destruct after as [|a after]; [|simpl in Hlen; lia].
    vm_compute in H. discriminate H. }
  split; [reflexivity|]. split; [reflexivity|]. split; [exact Hno|].
  split; [reflexivity|]. split; [reflexivity|].
  intros H. specialize (H _ _ Hno). vm_compute in H. discriminate H.
Qed.

(** C2, amended.  The pattern is the escaped parts of the trimmed sentence
    joined by [\s+], and it always compiles.  When the locator returns a
    span, the span consists of the parts in order with whitespace runs
    between them, and no such span starts earlier; for a sentence that is
    not blank the span splits on whitespace into exactly the parts of the
    sentence, and it is the only such span at its start.  The locator
    returns nothing exactly when no span of the text has that form,
    whether or not the span begins and ends where a word of the text
    does: a sentence that ends inside a longer word of the text is found.
    The named examples evaluate as stated. *)
Theorem locate_first_match :
  (forall txt sentence : jstring,
      let parts := splitSpaces (trim sentence) in
      sentencePattern sentence = join (lit "\s+") (map escapeRegExp parts) /\
      newRegExp (sentencePattern sentence) = Normal (wordsItems parts) /\
      match locate txt sentence with
      | Normal (Some (i, j)) =>
          occursAt parts txt i j /\
          (forall i' j', occursAt parts txt i' j' -> i <= i') /\
          (trim sentence <> [] ->
           (forall pre mid post,
               txt = pre ++ mid ++ post -> jlen pre = i -> jlen (pre ++ mid) = j ->
               splitSpaces mid = parts) /\
           (forall j', occursAt parts txt i j' -> j' = j))
      | Normal None => forall i' j', ~ occursAt parts txt i' j'
      | Throws _ => False
      end) /\
  locate (lit "The sky is blue.") (lit "The sky is green.") = Normal None /\
  locate climateText (lit "Climate change is important.")
  = Normal (Some (0, jlen climateText)) /\
  locate (lit "The sky is blueish.") (lit "The sky is blue") = Normal (Some (0, 15)).
Proof.
  split; [|split; [|split]; reflexivity].
  intros txt sentence parts.
  split; [reflexivity|]. split; [apply newRegExp_pattern|].
  unfold locate.
  rewrite newRegExp_pattern. change (sentenceParts sentence) with parts.
  assert (Hne : parts <> []) by apply splitSpaces_nonempty.
  destruct (exec (wordsItems parts) txt 0) as [[idx n]|] eqn:Hex.
  - apply exec_some in Hex as (pre & rest & -> & -> & Hm & Hmin).
    destruct (matchHere_sound _ _ _ Hm) as [Hn Hmatch].
    apply itemsMatch_words in Hmatch; [|assumption].
    assert (Hocc : occursAt parts (pre ++ rest) (Z.of_nat (0 + length pre))
                     (Z.of_nat (0 + length pre) + Z.of_nat n)).
    { exists pre, (firstn n rest), (skipn n rest).
      rewrite firstn_skipn. repeat split; auto.
      unfold jlen. rewrite length_app, length_firstn. lia. }
    split; [exact Hocc|split].
    + intros i' j' (pre' & mid' & post' & Heq & Hi & _ & Hmatch').
      destruct (Z.le_gt_cases (Z.of_nat (0 + length pre)) i') as [|Hlt]; [assumption|].
      exfalso.
      assert (Hnone : matchHere (wordsItems parts) (mid' ++ post') = None).
      { apply (Hmin pre'); [assumption|]. unfold jlen in Hi. lia. }
      apply itemsMatch_words in Hmatch'; [|assumption].
      destruct (matchHere_complete _ _ Hmatch' post') as [n' Hn'].
      congruence.
    + intros Hnb.
      destruct (sentenceParts_words sentence) as [Hns Hnz].
      specialize (Hnz Hnb). fold parts in Hns, Hnz.
      change (sentenceParts sentence) with parts in Hns, Hnz.
      split.
      * intros pre0 mid0 post0 Heq Hpre Hmid.
        destruct (same_length_prefix _ _ _ _ Heq) as [<- Hrest];
          [unfold jlen in Hpre; lia|].
        rewrite <- (firstn_skipn n rest) in Hrest.
        destruct (same_length_prefix _ _ _ _ Hrest) as [<- _].
        { unfold jlen in Hmid. rewrite length_app in Hmid.
          rewrite length_firstn. lia. }
        apply wordsMatch_split; auto.
      * intros j' (pre' & mid' & post' & Heq & Hi & Hj & Hmatch').
        destruct (same_length_prefix _ _ _ _ Heq) as [<- Hrest];
          [unfold jlen in Hi; lia|].
        rewrite <- (firstn_skipn n rest) in Hrest.
        assert (Hmid : firstn n rest = mid')
          by (eapply wordsMatch_unique; eauto).
        subst mid'. rewrite <- Hj. unfold jlen.
        rewrite length_app, length_firstn. lia.
  - intros i' j' (pre' & mid' & post' & Heq & _ & _ & Hmatch').
    apply itemsMatch_words in Hmatch'; [|assumption].
    destruct (matchHere_complete _ _ Hmatch' post') as [n' Hn'].
    rewrite (exec_none _ _ _ Hex pre' (mid' ++ post') Heq) in Hn'. discriminate.
Qed.

(** ** Accepting a suggestion *)

Example host_examples :
  textBlockHost [paragraph "Hello world. Bye."] 7 13 (lit "moon!")
  = HostDone [paragraph "Hello moon! Bye."] /\
  textBlockHost [PElem "paragraph" true
                   [PText [] (lit "a "); PText ["bold"%string] (lit "big"); PText [] (lit " cat")]]
                4 5 (lit "u")
  = HostDone [PElem "paragraph" true
                [PText [] (lit "a "); PText ["bold"%string] (lit "bug"); PText [] (lit " cat")]] /\
  textBlockHost [paragraph "ab"; PElem "paragraph" true []] 5 5 (lit "x")
  = HostDone [paragraph "ab"; paragraph "x"] /\
  textBlockHost bulletItem 4 5 (lit "xy")
  = HostDone [PElem "bulletList" true [PElem "listItem" true [paragraph "axy"]]] /\
  textBlockHost [paragraph "ab"] 1 9 (lit "x") = HostRaised [paragraph "ab"] "RangeError".
Proof. repeat split. Qed.

Lemma acceptFlow_unfold edit st doc fb :
  acceptFlow edit st doc fb =
  match acceptEffect edit doc (Some fb) with
  | Throws e => Throws e
  | Normal (doc', signals) =>
      Normal (fold_left deliver signals (handleAcceptFeedback st fb), doc', signals)
  end.
Proof. reflexivity. Qed.

(** C1.  The accept scenario.  The document is one paragraph with the
    text of the record's sentence.  The sentence is located, the host is
    asked to replace positions 1 to 34, the whole text of the paragraph,
    by the suggestion; when it does so the document holds the suggested
    text, the completion signal was sent once, and its handler has set the
    record's status to accepted.  The flat text built for a paragraph
    carries the virtual newline of the block before the text; for a
    document whose flat text is exactly the sentence (a bare text run, which
    is replaced from position 0 to 33) the flat text after the accept is
    exactly the suggestion. *)
Theorem accept_paris_scenario (edit : hostEdit) :
  edit parisDoc 1 34 parisAfter = HostDone parisDocAfter ->
  edit [PText [] parisBefore] 0 33 parisAfter = HostDone [PText [] parisAfter] ->
  textContent parisDoc = parisBefore /\
  fullText (buildTokens parisDoc) = nl :: parisBefore /\
  statuses parisApp = [pending] /\
  acceptFlow edit parisApp parisDoc parisRecord
  = Normal (parisAppAfter, parisDocAfter, [AcceptComplete parisRecord]) /\
  textContent parisDocAfter = parisAfter /\
  fullText (buildTokens parisDocAfter) = nl :: parisAfter /\
  statuses parisAppAfter = [accepted] /\
  fullText (buildTokens [PText [] parisBefore]) = parisBefore /\
  acceptFlow edit parisApp [PText [] parisBefore] parisRecord
  = Normal (parisAppAfter, [PText [] parisAfter], [AcceptComplete parisRecord]) /\
  fullText (buildTokens [PText [] parisAfter]) = parisAfter.
Proof.
  intros Hedit Hbare.
  assert (Hlocate : locate (fullText (buildTokens parisDoc)) parisBefore
                    = Normal (Some (1, 34))) by reflexivity.
  assert (Hlocate' : locate (fullText (buildTokens [PText [] parisBefore])) parisBefore
                     = Normal (Some (0, 33))) by reflexivity.
  repeat split.
  - rewrite acceptFlow_unfold. unfold acceptEffect.
    change (original_sentence parisRecord) with parisBefore.
    rewrite Hlocate.
    change (getPosFromIndex (buildTokens parisDoc) 1) with 1.
    change (getPosFromIndex (buildTokens parisDoc) 34) with 34.
    change (suggested_text parisRecord) with parisAfter.
    rewrite Hedit. reflexivity.
  - rewrite acceptFlow_unfold. unfold acceptEffect.
    change (original_sentence parisRecord) with parisBefore.
    rewrite Hlocate'.
    change (getPosFromIndex (buildTokens [PText [] parisBefore]) 0) with 0.
    change (getPosFromIndex (buildTokens [PText [] parisBefore]) 33) with 33.
    change (suggested_text parisRecord) with parisAfter.
    rewrite Hbare. reflexivity.
Qed.

Lemma accept_paris_scenario_witness :
  acceptFlow textBlockHost parisApp parisDoc parisRecord
  = Normal (parisAppAfter, parisDocAfter, [AcceptComplete parisRecord]) /\
  textContent parisDocAfter = parisAfter /\
  statuses parisAppAfter = [accepted].
Proof.
  destruct (accept_paris_scenario textBlockHost eq_refl eq_refl)
    as (_ & _ & _ & Hflow & Htext & _ & Hstatus & _).
  repeat split; assumption.
Defined.

Lemma mapStatus_statuses fbs target s next :
  map status (fst (mapStatus fbs target s next))
  = map (fun f => if sameObject f target then s else status f) fbs.
Proof.
  revert next. induction fbs as [|f r IH]; intros next; simpl; [reflexivity|].
  destruct (sameObject f target).
  - specialize (IH (S next)). destruct (mapStatus r target s (S next)).
    simpl in *. now f_equal.
  - specialize (IH next). destruct (mapStatus r target s next).
    simpl in *. now f_equal.
Qed.

(** C3.  When the locator finds no match, the accept leaves the document
    as it was, sends the warning and the alert but no completion signal,
    and the review data of the application, with the status of every
    record, stay as they were. *)
Theorem accept_not_found_leaves_everything
  (edit : hostEdit) (st : AppState) (doc : document) (fb : Feedback) :
  locate (fullText (buildTokens doc)) (original_sentence fb) = Normal None ->
  acceptEffect edit doc (Some fb) = Normal (doc, notFoundSignals) /\
  filter isAcceptComplete notFoundSignals = [] /\
  (exists st',
      acceptFlow edit st doc fb = Normal (st', doc, notFoundSignals) /\
      reviewData st' = reviewData st /\
      statuses st' = statuses st /\
      feedbackToAccept st' = Some fb).
Proof.
  intros Hloc.
  assert (He : acceptEffect edit doc (Some fb) = Normal (doc, notFoundSignals)).
  { unfold acceptEffect. now rewrite Hloc. }
  split; [exact He|split; [reflexivity|]].
  exists (handleAcceptFeedback st fb).
  rewrite acceptFlow_unfold, He. repeat split.
Qed.

Lemma accept_not_found_leaves_everything_witness :
  acceptEffect textBlockHost skyDoc (Some skyRecord) = Normal (skyDoc, notFoundSignals) /\
  filter isAcceptComplete notFoundSignals = [] /\
  (exists st',
      acceptFlow textBlockHost skyApp skyDoc skyRecord
      = Normal (st', skyDoc, notFoundSignals) /\
      reviewData st' = reviewData skyApp /\
      statuses st' = statuses skyApp /\
      feedbackToAccept st' = Some skyRecord).
Proof.
  apply (accept_not_found_leaves_everything textBlockHost skyApp skyDoc skyRecord).
  reflexivity.
Defined.

(** C8.  When the span is found and the edit of the host raises, the
    effect itself returns normally: the exception is caught, the error and
    the alert are sent but no completion signal, and the review data of the
    application, with the status of every record, stay as they were. *)
Theorem accept_mutation_failure_is_caught
  (edit : hostEdit) (st : AppState) (doc : document) (fb : Feedback)
  (startIndex endIndex : Z) (doc' : document) (err : string) :
  locate (fullText (buildTokens doc)) (original_sentence fb)
  = Normal (Some (startIndex, endIndex)) ->
  edit doc (getPosFromIndex (buildTokens doc) startIndex)
       (getPosFromIndex (buildTokens doc) endIndex) (suggested_text fb)
  = HostRaised doc' err ->
  acceptEffect edit doc (Some fb) = Normal (doc', mutationFailedSignals) /\
  filter isAcceptComplete mutationFailedSignals = [] /\
  (exists st',
      acceptFlow edit st doc fb = Normal (st', doc', mutationFailedSignals) /\
      reviewData st' = reviewData st /\
      statuses st' = statuses st /\
      feedbackToAccept st' = Some fb).
Proof.
  intros Hloc Hedit.
  assert (He : acceptEffect edit doc (Some fb) = Normal (doc', mutationFailedSignals)).
  { unfold acceptEffect. now rewrite Hloc, Hedit. }
  split; [exact He|split; [reflexivity|]].
  exists (handleAcceptFeedback st fb).
  rewrite acceptFlow_unfold, He. repeat split.
Qed.

Lemma accept_mutation_failure_is_caught_witness :
  acceptEffect refusingHost parisDoc (Some parisRecord)
  = Normal (parisDoc, mutationFailedSignals) /\
  filter isAcceptComplete mutationFailedSignals = [] /\
  (exists st',
      acceptFlow refusingHost parisApp parisDoc parisRecord
      = Normal (st', parisDoc, mutationFailedSignals) /\
      reviewData st' = reviewData parisApp /\
      statuses st' = statuses parisApp /\
      feedbackToAccept st' = Some parisRecord).
Proof.
  apply (accept_mutation_failure_is_caught refusingHost parisApp parisDoc
           parisRecord 1 34 parisDoc "RangeError"); reflexivity.
Defined.

(** *** Blank sentences *)

Lemma trimStart_blank s : forallb isWhitespace s = true -> trimStart s = [].
Proof.
  induction s as [|c r IH]; simpl; [reflexivity|].
  intros H. apply andb_prop in H as [-> H]. auto.
Qed.

Lemma trim_blank s : forallb isWhitespace s = true -> trim s = [].
Proof. intros H. unfold trim, trimEnd. now rewrite (trimStart_blank _ H). Qed.

Lemma locate_blank flat sentence :
  forallb isWhitespace sentence = true ->
  locate flat sentence = Normal (Some (0, 0)).
Proof.
  intros H. unfold locate, newRegExp, sentencePattern, sentenceParts.
  rewrite (trim_blank _ H). simpl. destruct flat; reflexivity.
Qed.

Lemma first_block_position n r :
  nodeIsBlock n = true -> getPosFromIndex (buildTokens (n :: r)) 0 = 1.
Proof.
  intros Hb. unfold buildTokens, descendants. cbn [fragmentFrom].
  destruct n as [m s|a b c|a b]; simpl in Hb; try discriminate; subst.
  - rewrite nodesFrom_elem. reflexivity.
  - reflexivity.
Qed.

(** C10.  For a record whose sentence is empty or all whitespace the
    pattern is empty and matches at offset 0 with length 0, whatever the
    flat text; the accept never takes the not-found branch.  Both ends of
    the range are the position of offset 0, which is position 1, just
    inside the first block, when the document starts with a block; the host
    is asked to delete that empty range and insert the suggestion there.
    When its edit completes, the completion signal is sent and its handler
    sets the status of the record to accepted. *)
Theorem blank_sentence_accept
  (edit : hostEdit) (st : AppState) (doc : document) (fb : Feedback) :
  forallb isWhitespace (original_sentence fb) = true ->
  let p := getPosFromIndex (buildTokens doc) 0 in
  sentencePattern (original_sentence fb) = [] /\
  locate (fullText (buildTokens doc)) (original_sentence fb) = Normal (Some (0, 0)) /\
  (forall n r, doc = n :: r -> nodeIsBlock n = true -> p = 1) /\
  acceptEffect edit doc (Some fb) <> Normal (doc, notFoundSignals) /\
  acceptEffect edit doc (Some fb)
  = match edit doc p p (suggested_text fb) with
    | HostDone doc' => Normal (doc', [AcceptComplete fb])
    | HostRaised doc' _ => Normal (doc', mutationFailedSignals)
    end /\
  (forall doc' rd,
      edit doc p p (suggested_text fb) = HostDone doc' ->
      reviewData st = Some rd ->
      exists st',
        acceptFlow edit st doc fb = Normal (st', doc', [AcceptComplete fb]) /\
        statuses st'
        = map (fun f => if sameObject f fb then accepted else status f)
            (feedbacks rd)).
Proof.
  intros Hblank p.
  assert (Hloc := locate_blank (fullText (buildTokens doc)) _ Hblank).
  assert (He : acceptEffect edit doc (Some fb)
               = match edit doc p p (suggested_text fb) with
                 | HostDone doc' => Normal (doc', [AcceptComplete fb])
                 | HostRaised doc' _ => Normal (doc', mutationFailedSignals)
                 end).
  { unfold acceptEffect. rewrite Hloc. reflexivity. }
  split; [|split; [exact Hloc|split; [|split; [|split; [exact He|]]]]].
  - unfold sentencePattern, sentenceParts. now rewrite (trim_blank _ Hblank).
  - intros n r -> Hb. now apply first_block_position.
  - rewrite He. destruct (edit doc p p (suggested_text fb)); discriminate.
  - intros doc' rd Hedit Hrd.
    rewrite acceptFlow_unfold, He, Hedit.
    eexists. split; [reflexivity|].
    cbn [fold_left deliver]. unfold onFeedbackAccepted.
    cbn [handleAcceptFeedback reviewData nextRef]. rewrite Hrd.
    pose proof (mapStatus_statuses (feedbacks rd) fb accepted (nextRef st)) as Hm.
    destruct (mapStatus (feedbacks rd) fb accepted (nextRef st)) as [fbs next].
    exact Hm.
Qed.

Lemma blank_sentence_accept_witness :
  sentencePattern (original_sentence blankRecord) = [] /\
  getPosFromIndex (buildTokens [paragraph "It is big."]) 0 = 1 /\
  exists st',
    acceptFlow textBlockHost blankApp [paragraph "It is big."] blankRecord
    = Normal (st', [paragraph "Paris is in France. It is big."],
              [AcceptComplete blankRecord]) /\
    statuses st' = [accepted].
Proof.
  destruct (blank_sentence_accept textBlockHost blankApp
              [paragraph "It is big."] blankRecord eq_refl)
    as (Hp & _ & H1 & _ & _ & Hflow).
  split; [exact Hp|]. split; [exact (H1 _ _ eq_refl eq_refl)|].
  destruct (Hflow [paragraph "Paris is in France. It is big."]
              (mkReview [blankRecord] 50 (lit "One issue.") false)
              eq_refl eq_refl) as (st' & Hf & Hs).
  exists st'. split; [exact Hf|exact Hs].
Defined.

(** ** The rendered tree *)

Lemma replaceTextIn_elem f t c o ks k :
  replaceTextIn f (DElem t c o ks) k = [DElem t c o (replaceText f ks k)].
Proof. reflexivity. Qed.

Lemma flat_map_textNodes_app (a b : list dnode) :
  flat_map textNodes (a ++ b) = flat_map textNodes a ++ flat_map textNodes b.
Proof. apply flat_map_app. Qed.

Lemma replaceText_texts f (l : dom) :
  Forall (fun n => forall k s,
              nth_error (textNodes n) k = Some s ->
              flat_map textNodes (replaceTextIn f n k)
              = firstn k (textNodes n) ++ flat_map textNodes (f s)
                ++ skipn (S k) (textNodes n)) l ->
  forall k s,
    nth_error (walkerTexts l) k = Some s ->
    walkerTexts (replaceText f l k)
    = firstn k (walkerTexts l) ++ flat_map textNodes (f s)
      ++ skipn (S k) (walkerTexts l).
Proof.
  unfold walkerTexts.
  induction 1 as [|x r Hx _ IH]; intros k s Hk; [now destruct k|].
  cbn [flat_map replaceText] in *.
  destruct (Nat.ltb_spec k (length (textNodes x))) as [Hlt|Hge].
  - rewrite nth_error_app1 in Hk by assumption.
    rewrite flat_map_textNodes_app, (Hx _ _ Hk).
    rewrite firstn_app, skipn_app.
    replace (k - length (textNodes x))%nat with 0%nat by lia.
    replace (S k - length (textNodes x))%nat with 0%nat by lia.
    simpl. rewrite app_nil_r, <- !app_assoc. reflexivity.
  - rewrite nth_error_app2 in Hk by assumption.
    cbn [flat_map]. rewrite (IH _ _ Hk).
    rewrite firstn_app, skipn_app.
    rewrite (firstn_all2 (textNodes x)) by lia.
    rewrite (skipn_all2 (textNodes x)) by lia.
    replace (S k - length (textNodes x))%nat
      with (S (k - length (textNodes x))) by lia.
    simpl. rewrite <- app_assoc. reflexivity.
Qed.

Lemma replaceTextIn_texts f n :
  forall k s,
    nth_error (textNodes n) k = Some s ->
    flat_map textNodes (replaceTextIn f n k)
    = firstn k (textNodes n) ++ flat_map textNodes (f s) ++ skipn (S k) (textNodes n).
Proof.
  induction n as [data|t c o ks IH] using dnode_tree_ind; intros k s Hk.
  - destruct k as [|k]; simpl in Hk.
    + injection Hk as <-. simpl. now rewrite app_nil_r.
    + now destruct k.
  - rewrite replaceTextIn_elem. cbn [flat_map textNodes]. rewrite app_nil_r.
    apply (replaceText_texts f ks IH). exact Hk.
Qed.

Lemma walkerTexts_replaceText f d k s :
  nth_error (walkerTexts d) k = Some s ->
  walkerTexts (replaceText f d k)
  = firstn k (walkerTexts d) ++ flat_map textNodes (f s) ++ skipn (S k) (walkerTexts d).
Proof.
  apply replaceText_texts. apply Forall_forall. intros n _. apply replaceTextIn_texts.
Qed.

Lemma nth_error_split_texts (ts : list jstring) k s :
  nth_error ts k = Some s -> ts = firstn k ts ++ s :: skipn (S k) ts.
Proof.
  revert k. induction ts as [|x r IH]; intros k Hk; [now destruct k|].
  destruct k as [|k]; simpl in *.
  - now injection Hk as ->.
  - f_equal. now apply IH.
Qed.

Lemma slice_parts (a b : nat) (data : jstring) :
  (a <= b)%nat ->
  firstn a data ++ firstn (b - a) (skipn a data) ++ skipn b data = data.
Proof.
  intros Hab.
  replace (skipn b data) with (skipn (b - a) (skipn a data)).
  - now rewrite firstn_skipn, firstn_skipn.
  - rewrite skipn_skipn. f_equal. lia.
Qed.

(** What [surroundContents] does when it returns. *)
Lemma surroundContents_normal d k rs re mark d' :
  (forall ks, textNodes (mark ks) = flat_map textNodes ks) ->
  surroundContents d k rs re mark = Normal d' ->
  exists data,
    nth_error (walkerTexts d) k = Some data /\
    0 <= rs <= jlen data /\ 0 <= re <= jlen data /\
    d' = replaceText (wrapRange (Z.min rs re) re mark) d k /\
    walkerTexts d'
    = firstn k (walkerTexts d)
      ++ [firstn (Z.to_nat (Z.min rs re)) data;
          firstn (Z.to_nat (re - Z.min rs re)) (skipn (Z.to_nat (Z.min rs re)) data);
          skipn (Z.to_nat re) data]
      ++ skipn (S k) (walkerTexts d) /\
    domText d' = domText d.
Proof.
  intros Hmark. unfold surroundContents, setBoundary.
  destruct (nth_error (walkerTexts d) k) as [data|] eqn:Hk; [|discriminate].
  destruct (Z.ltb_spec rs 0); [discriminate|].
  destruct (Z.ltb_spec (jlen data) rs); [discriminate|].
  destruct (Z.ltb_spec re 0); [discriminate|].
  destruct (Z.ltb_spec (jlen data) re); [discriminate|].
  simpl. intros [= <-]. exists data.
  assert (Htexts : walkerTexts (replaceText (wrapRange (Z.min rs re) re mark) d k)
                   = firstn k (walkerTexts d)
                     ++ [firstn (Z.to_nat (Z.min rs re)) data;
                         firstn (Z.to_nat (re - Z.min rs re))
                           (skipn (Z.to_nat (Z.min rs re)) data);
                         skipn (Z.to_nat re) data]
                     ++ skipn (S k) (walkerTexts d)).
  { rewrite (walkerTexts_replaceText _ _ _ _ Hk). unfold wrapRange.
    cbn [flat_map textNodes]. rewrite Hmark. reflexivity. }
  repeat split; try lia; try assumption.
  unfold domText. rewrite Htexts, !concat_app. cbn [concat].
  pose proof (nth_error_split_texts _ _ _ Hk) as Hsplit.
  apply (f_equal (@concat codeUnit)) in Hsplit.
  rewrite concat_app in Hsplit. cbn [concat] in Hsplit.
  etransitivity; [|symmetry; exact Hsplit].
  f_equal. rewrite app_nil_r, <- !app_assoc. rewrite !app_assoc. f_equal.
  rewrite <- app_assoc.
  rewrite Z2Nat.inj_sub by lia. apply slice_parts. lia.
Qed.

Lemma highlightMark_texts fb sel ks :
  textNodes (highlightMark fb sel ks) = flat_map textNodes ks.
Proof. reflexivity. Qed.

(** The loop body never lets an exception out, keeps the text, and adds
    at most two text nodes. *)
Lemma visitTextNode_normal d fb sel k currentPos data :
  exists d',
    visitTextNode d fb sel k currentPos data = Normal d' /\
    domText d' = domText d /\
    (length (walkerTexts d') <= length (walkerTexts d) + 2)%nat.
Proof.
  unfold visitTextNode.
  destruct ((currentPos <=? start_index fb)
            && (start_index fb <? currentPos + jlen data));
    [|exists d; repeat split; lia].
  destruct (start_index fb - currentPos
            <? Z.min (end_index fb - currentPos) (jlen data));
    [|exists d; repeat split; lia].
  destruct (surroundContents d k (start_index fb - currentPos)
              (Z.min (end_index fb - currentPos) (jlen data))
              (highlightMark fb sel)) as [d'|e] eqn:Hs.
  - exists d'. simpl.
    destruct (surroundContents_normal _ _ _ _ _ _ (highlightMark_texts fb sel) Hs)
      as (data' & Hk & _ & _ & _ & Htexts & Htext).
    repeat split; [assumption|].
    rewrite Htexts, !length_app, length_firstn, length_skipn. simpl.
    assert (k < length (walkerTexts d))%nat by (apply nth_error_Some; congruence).
    lia.
  - exists d. simpl. repeat split; lia.
Qed.

(** ** The tree walker loop *)

Lemma skipn_cons_nth {A} (l : list A) k x r :
  skipn k l = x :: r -> nth_error l k = Some x /\ skipn (S k) l = r.
Proof.
  revert l. induction k as [|k IH]; intros l H.
  - simpl in H. subst. now split.
  - destruct l as [|y l]; [discriminate|]. simpl in H. now apply IH.
Qed.

Lemma skipn_nil_nth {A} (l : list A) k :
  skipn k l = [] -> nth_error l k = None.
Proof.
  intros H. apply nth_error_None.
  apply (f_equal (@length A)) in H. rewrite length_skipn in H. simpl in H. lia.
Qed.

(** Once the position counter has passed [start_index] the loop only
    runs to the end of the text nodes. *)
Lemma walk_past_start fb sel :
  forall fuel d k currentPos,
    start_index fb < currentPos ->
    (length (walkerTexts d) - k < fuel)%nat ->
    walk fuel fb sel d k currentPos = Some (Normal d).
Proof.
  induction fuel as [|fuel IH]; intros d k currentPos Hpos Hfuel; [lia|].
  simpl. destruct (nth_error (walkerTexts d) k) as [data|] eqn:Hk; [|reflexivity].
  assert (Hv : visitTextNode d fb sel k currentPos data = Normal d).
  { unfold visitTextNode.
    destruct (Z.leb_spec currentPos (start_index fb)); [lia|reflexivity]. }
  rewrite Hv.
  assert (k < length (walkerTexts d))%nat by (apply nth_error_Some; congruence).
  pose proof (jlen_nonneg data).
  apply IH; lia.
Qed.

Lemma walk_runAt fb sel d :
  forall rest k currentPos fuel,
    skipn k (walkerTexts d) = rest ->
    (length rest + 2 < fuel)%nat ->
    walk fuel fb sel d k currentPos
    = Some (paintAt d fb sel (runAt rest (start_index fb) k currentPos)).
Proof.
  induction rest as [|data rest IH]; intros k currentPos fuel Hrest Hfuel.
  - destruct fuel as [|fuel]; [lia|]. simpl.
    now rewrite (skipn_nil_nth _ _ Hrest).
  - destruct fuel as [|fuel]; [simpl in Hfuel; lia|].
    destruct (skipn_cons_nth _ _ _ _ Hrest) as [Hk Hrest'].
    cbn [walk runAt]. rewrite Hk.
    destruct ((currentPos <=? start_index fb)
              && (start_index fb <? currentPos + jlen data)) eqn:Hc.
    + cbn [paintAt].
      destruct (visitTextNode_normal d fb sel k currentPos data)
        as (d' & Hv & _ & Hlen).
      rewrite Hv.
      apply andb_prop in Hc as [_ Hc]. apply Z.ltb_lt in Hc.
      apply walk_past_start; [assumption|].
      assert (length (walkerTexts d) - k = S (length rest))%nat.
      { rewrite <- length_skipn, Hrest. reflexivity. }
      simpl in Hfuel. lia.
    + assert (Hv : visitTextNode d fb sel k currentPos data = Normal d).
      { unfold visitTextNode. now rewrite Hc. }
      rewrite Hv. apply IH; [assumption|simpl in Hfuel; lia].
Qed.

Lemma paintRecord_runAt d fb sel :
  paintRecord d fb sel
  = Some (paintAt d fb sel (runAt (walkerTexts d) (start_index fb) 0 0)).
Proof.
  unfold paintRecord. apply walk_runAt; [reflexivity|lia].
Qed.




(** ** Removing markers keeps the text *)

Lemma mergeTexts_text l :
  concat (flat_map textNodes (mergeTexts l)) = concat (flat_map textNodes l).
Proof.
  induction l as [|n r IH]; [reflexivity|].
  destruct n as [s|t c o ks].
  - destruct s as [|a s]; [exact IH|].
    cbn [mergeTexts].
    change (concat (flat_map textNodes (DText (a :: s) :: r)))
      with ((a :: s) ++ concat (flat_map textNodes r)).
    rewrite <- IH.
    destruct (mergeTexts r) as [|[s'|t c o ks] r']; cbn [flat_map textNodes concat app];
      rewrite ?app_nil_r, ?app_assoc; reflexivity.
  - cbn [mergeTexts flat_map]. rewrite !concat_app. now f_equal.
Qed.

Lemma concat_texts_map (g : dnode -> dnode) ks :
  Forall (fun k => concat (textNodes (g k)) = concat (textNodes k)) ks ->
  concat (flat_map textNodes (map g ks)) = concat (flat_map textNodes ks).
Proof.
  induction 1 as [|k r Hk _ IH]; [reflexivity|].
  cbn [map flat_map]. rewrite !concat_app. now f_equal.
Qed.

Lemma normalizeNode_text n :
  concat (textNodes (normalizeNode n)) = concat (textNodes n).
Proof.
  induction n as [s|t c o ks IH] using dnode_tree_ind; [reflexivity|].
  cbn [normalizeNode textNodes]. rewrite mergeTexts_text.
  now apply concat_texts_map.
Qed.

Lemma unmark_text rec k :
  concat (textNodes (rec k)) = concat (textNodes k) ->
  concat (textNodes (unmark rec k)) = concat (textNodes k).
Proof.
  intros H. unfold unmark. destruct (isHighlight k); [|assumption].
  simpl. apply app_nil_r.
Qed.

Lemma normalized_text ks :
  concat (flat_map textNodes (mergeTexts (map normalizeNode ks)))
  = concat (flat_map textNodes ks).
Proof.
  rewrite mergeTexts_text. apply concat_texts_map.
  apply Forall_forall. intros k _. apply normalizeNode_text.
Qed.

Lemma removeHighlightsIn_text n :
  concat (textNodes (removeHighlightsIn n)) = concat (textNodes n).
Proof.
  induction n as [s|t c o ks IH] using dnode_tree_ind; [reflexivity|].
  cbn [removeHighlightsIn].
  assert (H : concat (flat_map textNodes (map (unmark removeHighlightsIn) ks))
              = concat (flat_map textNodes ks)).
  { apply concat_texts_map. eapply Forall_impl; [|exact IH].
    intros k Hk. now apply unmark_text. }
  destruct (existsb isHighlight ks); cbn [textNodes];
    rewrite ?normalized_text; exact H.
Qed.

Lemma removeHighlights_text d : domText (removeHighlights d) = domText d.
Proof.
  unfold removeHighlights, domText, walkerTexts.
  assert (H : concat (flat_map textNodes (map (unmark removeHighlightsIn) d))
              = concat (flat_map textNodes d)).
  { apply concat_texts_map. apply Forall_forall. intros k _.
    apply unmark_text, removeHighlightsIn_text. }
  destruct (existsb isHighlight d); rewrite ?normalized_text; exact H.
Qed.

(** ** The highlight pass *)

Lemma surroundContents_inside d k rs re mark data :
  nth_error (walkerTexts d) k = Some data ->
  0 <= rs <= re -> re <= jlen data ->
  surroundContents d k rs re mark
  = Normal (replaceText (wrapRange rs re mark) d k).
Proof.
  intros Hk Hrs Hre. unfold surroundContents, setBoundary. rewrite Hk.
  destruct (Z.ltb_spec rs 0); [lia|].
  destruct (Z.ltb_spec (jlen data) rs); [lia|].
  destruct (Z.ltb_spec re 0); [lia|].
  destruct (Z.ltb_spec (jlen data) re); [lia|].
  simpl. now rewrite Z.min_l by lia.
Qed.

Lemma runAt_spec ts start :
  forall k currentPos k' nodeStart data,
    runAt ts start k currentPos = Some (k', nodeStart, data) ->
    exists i,
      k' = (k + i)%nat /\ nth_error ts i = Some data /\
      nodeStart = currentPos + jlen (concat (firstn i ts)) /\
      nodeStart <= start < nodeStart + jlen data.
Proof.
  induction ts as [|s r IH]; intros k currentPos k' nodeStart data; simpl;
    [discriminate|].
  destruct ((currentPos <=? start) && (start <? currentPos + jlen s)) eqn:Hc.
  - intros [= <- <- <-]. exists 0%nat.
    apply andb_prop in Hc as [H1 H2]. apply Z.leb_le in H1. apply Z.ltb_lt in H2.
    change (jlen (concat (firstn 0 (s :: r)))) with 0.
    repeat split; auto; lia.
  - intros H. apply IH in H as (i & -> & Hi & -> & Hrange).
    exists (S i). cbn [firstn concat nth_error]. rewrite jlen_app.
    repeat split; auto; lia.
Qed.

Lemma runAt_none ts start :
  forall k currentPos,
    currentPos + jlen (concat ts) <= start -> runAt ts start k currentPos = None.
Proof.
  induction ts as [|s r IH]; intros k currentPos H; simpl; [reflexivity|].
  simpl in H. rewrite jlen_app in H.
  pose proof (jlen_nonneg (concat r)).
  destruct (Z.ltb_spec start (currentPos + jlen s)); [lia|].
  rewrite andb_false_r. apply IH. lia.
Qed.

Lemma slice_inside (pre data post : jstring) (a b : Z) :
  jlen pre <= a -> a <= b -> b <= jlen pre + jlen data ->
  slice a b (pre ++ data ++ post) = slice (a - jlen pre) (b - jlen pre) data.
Proof.
  unfold slice, jlen. intros Ha Hab Hb.
  rewrite skipn_app.
  rewrite (skipn_all2 pre) by lia. cbn [app].
  replace (Z.to_nat a - length pre)%nat
    with (Z.to_nat (a - Z.of_nat (length pre))) by lia.
  rewrite skipn_app, firstn_app, length_skipn.
  replace (Z.to_nat (b - Z.of_nat (length pre) - (a - Z.of_nat (length pre))))
    with (Z.to_nat (b - a)) by lia.
  replace (Z.to_nat (b - a)
           - (length data - Z.to_nat (a - Z.of_nat (length pre))))%nat
    with 0%nat by lia.
  cbn [firstn]. now rewrite app_nil_r.
Qed.

Lemma visitTextNode_in_run d fb sel k nodeStart data :
  nth_error (walkerTexts d) k = Some data ->
  nodeStart <= start_index fb < nodeStart + jlen data ->
  visitTextNode d fb sel k nodeStart data
  = Normal (if start_index fb <? end_index fb then
              replaceText
                (wrapRange (start_index fb - nodeStart)
                   (Z.min (end_index fb) (nodeStart + jlen data) - nodeStart)
                   (highlightMark fb sel)) d k
            else d).
Proof.
  intros Hk Hrange. unfold visitTextNode.
  destruct (Z.leb_spec nodeStart (start_index fb)); [|lia].
  destruct (Z.ltb_spec (start_index fb) (nodeStart + jlen data)); [|lia].
  cbn [andb].
  destruct (Z.ltb_spec (start_index fb - nodeStart)
              (Z.min (end_index fb - nodeStart) (jlen data)));
    destruct (Z.ltb_spec (start_index fb) (end_index fb)); try lia;
    [|reflexivity].
  rewrite (surroundContents_inside _ _ _ _ _ data) by (assumption || lia).
  cbn [tryCatch]. do 3 f_equal. lia.
Qed.

Lemma paintRecord_outcome d fb sel :
  paintRecord d fb sel
  = Some (Normal
            match runAt (walkerTexts d) (start_index fb) 0 0 with
            | Some (k, nodeStart, data) =>
                if start_index fb <? end_index fb then
                  replaceText
                    (wrapRange (start_index fb - nodeStart)
                       (Z.min (end_index fb) (nodeStart + jlen data) - nodeStart)
                       (highlightMark fb sel)) d k
                else d
            | None => d
            end).
Proof.
  rewrite paintRecord_runAt.
  destruct (runAt (walkerTexts d) (start_index fb) 0 0)
    as [[[k nodeStart] data]|] eqn:Hrun; [|reflexivity].
  destruct (runAt_spec _ _ _ _ _ _ _ Hrun) as (i & -> & Hi & _ & Hrange).
  cbn [paintAt]. f_equal. now apply visitTextNode_in_run.
Qed.



(** C9.  A pending record is painted inside the one text run that
    contains its start index: that run is cut in three, and the marker
    holds the characters of the rendered text from the start index up to
    the end index or the end of the run, whichever comes first; every other
    text run stays as it is.  When the start index is at or past the length
    of the rendered text, nothing is painted. *)
Theorem marker_stays_in_start_run
  (d : dom) (fb : Feedback) (selected : option Feedback) :
  (forall k nodeStart data,
      runAt (walkerTexts d) (start_index fb) 0 0 = Some (k, nodeStart, data) ->
      start_index fb < end_index fb ->
      let stop := Z.min (end_index fb) (nodeStart + jlen data) in
      let d' :=
        replaceText
          (wrapRange (start_index fb - nodeStart) (stop - nodeStart)
             (highlightMark fb selected)) d k in
      paintRecord d fb selected = Some (Normal d') /\
      walkerTexts d'
      = firstn k (walkerTexts d)
        ++ [firstn (Z.to_nat (start_index fb - nodeStart)) data;
            slice (start_index fb - nodeStart) (stop - nodeStart) data;
            skipn (Z.to_nat (stop - nodeStart)) data]
        ++ skipn (S k) (walkerTexts d) /\
      slice (start_index fb - nodeStart) (stop - nodeStart) data
      = slice (start_index fb) stop (domText d) /\
      (nodeStart + jlen data < end_index fb -> stop = nodeStart + jlen data)) /\
  (jlen (domText d) <= start_index fb ->
   paintRecord d fb selected = Some (Normal d)).
Proof.
  split.
  - intros k nodeStart data Hrun Hlt stop d'.
    destruct (runAt_spec _ _ _ _ _ _ _ Hrun) as (i & Hki & Hi & Hns & Hrange).
    simpl in Hki. subst k.
    assert (Hs : surroundContents d i (start_index fb - nodeStart)
                   (stop - nodeStart) (highlightMark fb selected) = Normal d').
    { apply (surroundContents_inside _ _ _ _ _ data); [assumption| |];
        unfold stop; lia. }
    split; [|split; [|split]].
    + rewrite paintRecord_outcome, Hrun.
      destruct (Z.ltb_spec (start_index fb) (end_index fb)); [reflexivity|lia].
    + destruct (surroundContents_normal _ _ _ _ _ _
                  (highlightMark_texts fb selected) Hs)
        as (data' & Hi' & _ & _ & _ & Htexts & _).
      assert (data' = data) by congruence. subst data'.
      rewrite Htexts. unfold slice.
      rewrite Z.min_l by (unfold stop; lia).
      reflexivity.
    + unfold domText.
      rewrite (nth_error_split_texts _ _ _ Hi) at 1.
      rewrite concat_app. cbn [concat].
      rewrite slice_inside; unfold stop in *; try lia.
      replace (jlen (concat (firstn i (walkerTexts d)))) with nodeStart by lia.
      reflexivity.
    + intros H. unfold stop. lia.
  - intros H. rewrite paintRecord_runAt.
    rewrite runAt_none; [reflexivity|]. unfold domText in H. lia.
Qed.

Lemma marker_stays_in_start_run_witness :
  paintRecord boldRuns boldRecord None
  = Some (Normal
            [DElem "p" [] None
               [DText (lit "a");
                DElem "mark" ["highlight"; "highlight-high"]%string (Some 1%nat)
                  [DText (lit "b")];
                DText [];
                DElem "strong" [] None [DText (lit "cd")]; DText (lit "ef")]]).
Proof.
  destruct (marker_stays_in_start_run boldRuns boldRecord None) as [H _].
  destruct (H 0%nat 0 (lit "ab") eq_refl ltac:(reflexivity)) as [Hp _].
  exact Hp.
Defined.

(** Two pending records that overlap are both painted: the second one
    inside the marker of the first, up to the end of that marker's run. *)
Example overlapping_records_nest :
  highlightEffect false twentyChars [recordA; recordB] None
  = Some (Normal
            [DElem "p" [] None
               [DText [];
                DElem "mark" ["highlight"; "highlight-high"]%string (Some 1%nat)
                  [DText (lit "01234");
                   DElem "mark" ["highlight"; "highlight-low"]%string (Some 2%nat)
                     [DText (lit "56789")];
                   DText []];
                DText (lit "abcdefghij")]]) /\
  (forall d', highlightEffect false twentyChars [recordA; recordB] None
              = Some (Normal d') ->
              markers d' = [(Some 1%nat, lit "0123456789"); (Some 2%nat, lit "56789")]).
Proof.
  split; [reflexivity|]. intros d' [= <-]. reflexivity.
Qed.

(* ================================================================= *)
(** * Further properties *)

(** ** Positions stay inside the document *)

Lemma fragment_tokens_ordered (l : list pmnode) :
  forall q,
    ordered q (flat_map pushToken (fragmentFrom l q)) /\
    orderedEnd q (flat_map pushToken (fragmentFrom l q)) <= q + fragmentSize l.
Proof.
  induction l as [|k r IH]; intros q; cbn [fragmentFrom fragmentSize flat_map].
  - split; [exact I|simpl; lia].
  - rewrite flat_map_app, orderedEnd_app.
    destruct (node_tokens_ordered k q) as [Hk1 Hk2].
    destruct (IH (q + nodeSize k)) as [Hr1 Hr2].
    split.
    + apply ordered_app; [assumption|]. eapply ordered_weaken; eassumption.
    + pose proof (orderedEnd_mono (q + nodeSize k) _
                    (flat_map pushToken (fragmentFrom r (q + nodeSize k))) Hk2).
      lia.
Qed.

Lemma scanTokens_upper lo ts k c p :
  ordered lo ts -> scanTokens ts k c = Some p -> p <= orderedEnd lo ts.
Proof.
  revert lo c. induction ts as [|t r IH]; intros lo c Ho; simpl; [discriminate|].
  destruct Ho as (H1 & _ & H3). pose proof (orderedEnd_ge _ _ H3) as Hge.
  destruct (Z.ltb_spec k (c + jlen (text t))).
  - unfold tokenEnd in *. destruct (isVirtual t); intros [= <-]; lia.
  - intros Hs. exact (IH _ _ H3 Hs).
Qed.

Lemma getPosFromIndex_bounds ts k :
  ordered 0 ts -> 0 <= k -> 0 <= getPosFromIndex ts k <= orderedEnd 0 ts.
Proof.
  intros Ho Hk. unfold getPosFromIndex.
  destruct (scanTokens ts k 0) as [p|] eqn:Hs.
  - split; [eapply scanTokens_lower; eauto|eapply scanTokens_upper; eauto].
  - destruct ts as [|t r]; [change (endOfLast []) with 0; simpl; lia|].
    rewrite (endOfLast_orderedEnd 0) by assumption.
    pose proof (orderedEnd_ge _ _ Ho). lia.
Qed.

(** X1.  A flat-text offset that is not negative is mapped to a position
    of the document: between 0 and the size of its content. *)
Theorem position_within_document (doc : document) (k : Z) :
  0 <= k -> 0 <= getPosFromIndex (buildTokens doc) k <= fragmentSize doc.
Proof.
  intros Hk.
  pose proof (getPosFromIndex_bounds _ k (buildTokens_ordered doc) Hk) as H.
  destruct (fragment_tokens_ordered doc 0) as [_ Hend].
  unfold buildTokens, descendants in *. lia.
Qed.

Lemma position_within_document_witness :
  0 <= getPosFromIndex (buildTokens twoParagraphs) 3 <= fragmentSize twoParagraphs.
Proof. apply (position_within_document twoParagraphs 3). lia. Defined.

Lemma locate_indices txt sentence i j :
  locate txt sentence = Normal (Some (i, j)) -> 0 <= i /\ i <= j /\ j <= jlen txt.
Proof.
  unfold locate. rewrite newRegExp_pattern.
  destruct (exec (wordsItems (sentenceParts sentence)) txt 0) as [[idx n]|] eqn:Hex;
    [|discriminate].
  intros [= <- <-]. apply exec_some in Hex as (pre & rest & -> & -> & Hm & _).
  destruct (matchHere_sound _ _ _ Hm) as [Hn _].
  unfold jlen. rewrite length_app. lia.
Qed.

(** X2.  Whenever the sentence is located, the range handed to the host
    is a range of the document: its ends are in order and both lie between
    0 and the size of the content. *)
Theorem accept_range_in_document
  (edit : hostEdit) (doc : document) (fb : Feedback) (i j : Z) :
  locate (fullText (buildTokens doc)) (original_sentence fb) = Normal (Some (i, j)) ->
  let from := getPosFromIndex (buildTokens doc) i in
  let to := getPosFromIndex (buildTokens doc) j in
  0 <= from /\ from <= to /\ to <= fragmentSize doc /\
  acceptEffect edit doc (Some fb)
  = match edit doc from to (suggested_text fb) with
    | HostDone doc' => Normal (doc', [AcceptComplete fb])
    | HostRaised doc' _ => Normal (doc', mutationFailedSignals)
    end.
Proof.
  intros Hloc from to.
  destruct (locate_indices _ _ _ _ Hloc) as (Hi & Hij & _).
  pose proof (getPosFromIndex_bounds _ i (buildTokens_ordered doc) Hi).
  pose proof (getPosFromIndex_bounds _ j (buildTokens_ordered doc) ltac:(lia)).
  destruct (fragment_tokens_ordered doc 0) as [_ Hend].
  change (flat_map pushToken (fragmentFrom doc 0)) with (buildTokens doc) in Hend.
  pose proof (getPosFromIndex_monotone 0 _ i j (buildTokens_ordered doc) Hij).
  repeat split; try (unfold from, to; lia).
  unfold acceptEffect. rewrite Hloc. reflexivity.
Qed.

Lemma accept_range_in_document_witness :
  0 <= 1 /\ 1 <= 34 /\ 34 <= fragmentSize parisDoc /\
  acceptEffect textBlockHost parisDoc (Some parisRecord)
  = Normal (parisDocAfter, [AcceptComplete parisRecord]).
Proof.
  exact (accept_range_in_document textBlockHost parisDoc parisRecord 1 34 eq_refl).
Defined.

(** ** The range of a located sentence is not empty *)

Lemma tokenAt_char ts :
  forall k c tok cl rest,
    c <= k -> tokenAt ts k c = Some (tok, cl, rest) ->
    cl <= k < cl + jlen (text tok) /\
    nth_error (concat (map text ts)) (Z.to_nat (k - c))
    = nth_error (text tok) (Z.to_nat (k - cl)).
Proof.
  induction ts as [|t r IH]; intros k c tok cl rest Hc; simpl; [discriminate|].
  destruct (Z.ltb_spec k (c + jlen (text t))) as [Hlt|Hge].
  - intros [= <- <- <-]. split; [lia|].
    apply nth_error_app1. unfold jlen in Hlt. lia.
  - intros H. assert (Hc' : c + jlen (text t) <= k) by lia.
    destruct (IH _ _ _ _ _ Hc' H) as [H1 H2].
    split; [exact H1|]. rewrite <- H2.
    rewrite nth_error_app2 by (unfold jlen in Hge; lia).
    f_equal. unfold jlen in *. lia.
Qed.

Lemma ordered_wf lo ts : ordered lo ts -> Forall tokenWf ts.
Proof.
  revert lo. induction ts as [|t r IH]; intros lo H; constructor.
  - apply H.
  - apply (IH (tokenEnd t)). apply H.
Qed.

Lemma resolveFrom_step ts :
  forall lo c d k tok cl rest,
    ordered lo ts -> orderedEnd lo ts <= d -> c <= k ->
    tokenAt ts k c = Some (tok, cl, rest) -> isVirtual tok = false ->
    resolveFrom ts k c d < resolveFrom ts (k + 1) c d.
Proof.
  unfold resolveFrom.
  induction ts as [|t r IH]; intros lo c d k tok cl rest Ho Hd Hc; simpl;
    [discriminate|].
  destruct Ho as (H1 & Hwf & H3). simpl in Hd.
  pose proof (orderedEnd_ge _ _ H3) as Hend.
  destruct (Z.ltb_spec k (c + jlen (text t))) as [Hk|Hk].
  - intros [= <- <- <-] Hv. rewrite Hv.
    assert (Hte : tokenEnd t = pos t + jlen (text t))
      by (unfold tokenEnd; now rewrite Hv).
    destruct (Z.ltb_spec (k + 1) (c + jlen (text t))) as [Hk1|Hk1]; [lia|].
    destruct (scanTokens r (k + 1) (c + jlen (text t))) as [p|] eqn:Hs.
    + apply (scanTokens_lower _ _ _ _ _ H3) in Hs; lia.
    + lia.
  - intros Hat Hv.
    destruct (Z.ltb_spec (k + 1) (c + jlen (text t))); [lia|].
    apply (IH (tokenEnd t) _ _ _ tok cl rest); auto; lia.
Qed.

Lemma wordsItems_head c w ps :
  exists its, wordsItems ((c :: w) :: ps) = RChar c :: its.
Proof. destruct ps; simpl; eauto. Qed.

Lemma sentenceParts_head sentence :
  trim sentence <> [] ->
  exists c w ps,
    sentenceParts sentence = (c :: w) :: ps /\ isWhitespace c = false.
Proof.
  intros Hne. destruct (sentenceParts_words sentence) as [Hns Hnz].
  specialize (Hnz Hne).
  destruct (sentenceParts sentence) as [|[|c w] ps] eqn:E.
  - now destruct (splitSpaces_nonempty (trim sentence)).
  - inversion Hnz; congruence.
  - exists c, w, ps. split; [reflexivity|].
    inversion Hns as [|? ? Hw _]; subst. simpl in Hw.
    apply andb_prop in Hw as [Hw _]. now apply negb_true_iff in Hw.
Qed.

Lemma locate_first_char txt sentence i j :
  trim sentence <> [] ->
  locate txt sentence = Normal (Some (i, j)) ->
  0 <= i /\ i < j /\ j <= jlen txt /\
  exists c, nth_error txt (Z.to_nat i) = Some c /\ isWhitespace c = false.
Proof.
  intros Hne. unfold locate. rewrite newRegExp_pattern.
  destruct (sentenceParts_head _ Hne) as (c & w & ps & -> & Hc).
  destruct (wordsItems_head c w ps) as [its ->].
  destruct (exec (RChar c :: its) txt 0) as [[idx n]|] eqn:Hex; [|discriminate].
  intros [= <- <-]. apply exec_some in Hex as (pre & rest & -> & -> & Hm & _).
  destruct (matchHere_sound _ _ _ Hm) as [Hn _].
  destruct rest as [|d rest]; [discriminate|]. simpl in Hm.
  destruct (N.eqb_spec c d) as [<-|]; [|discriminate].
  destruct (matchHere its rest) as [n'|]; [|discriminate].
  injection Hm as <-.
  unfold jlen. rewrite length_app. simpl in *.
  repeat split; try lia.
  exists c. split; [|assumption].
  rewrite Nat2Z.id, nth_error_app2 by lia.
  now rewrite Nat.sub_diag.
Qed.

(** X3.  For a sentence that is not blank the range handed to the host is
    never empty: the position of the start of the match is strictly before
    the position of its end. *)
Theorem accept_range_nonempty
  (doc : document) (sentence : jstring) (i j : Z) :
  trim sentence <> [] ->
  locate (fullText (buildTokens doc)) sentence = Normal (Some (i, j)) ->
  getPosFromIndex (buildTokens doc) i < getPosFromIndex (buildTokens doc) j.
Proof.
  intros Hne Hloc.
  destruct (locate_first_char _ _ _ _ Hne Hloc) as (Hi & Hij & Hj & c & Hc & Hws).
  pose proof (buildTokens_ordered doc) as Ho.
  set (ts := buildTokens doc) in *.
  unfold fullText in Hc, Hj. rewrite join_empty_sep in Hc, Hj.
  destruct (tokenAt ts i 0) as [[[tok cl] rest]|] eqn:Hat.
  - destruct (tokenAt_char ts i 0 tok cl rest Hi Hat) as [Hcl Hchar].
    rewrite Z.sub_0_r, Hc in Hchar.
    assert (Hreal : isVirtual tok = false).
    { destruct (isVirtual tok) eqn:Hv; [exfalso|reflexivity].
      destruct (tokenAt_split _ _ _ _ _ _ Hat) as [pre Hts].
      pose proof (ordered_wf _ _ Ho) as Hwf. rewrite Hts in Hwf.
      apply Forall_app in Hwf as [_ Hwf]. inversion Hwf as [|? ? Htok _]; subst.
      rewrite (Htok Hv) in Hchar, Hcl.
      change (jlen [nl]) with 1 in Hcl.
      replace (Z.to_nat (i - cl)) with 0%nat in Hchar by lia.
      simpl in Hchar. injection Hchar as ->. discriminate Hws. }
    assert (Hstep : getPosFromIndex ts i < getPosFromIndex ts (i + 1)).
    { destruct ts as [|t r]; [discriminate|].
      change (resolveFrom (t :: r) i 0 (endOfLast (t :: r))
              < resolveFrom (t :: r) (i + 1) 0 (endOfLast (t :: r))).
      apply (resolveFrom_step _ 0 0 _ i tok cl rest); auto.
      rewrite (endOfLast_orderedEnd 0); auto. lia. }
    pose proof (getPosFromIndex_monotone 0 ts (i + 1) j Ho ltac:(lia)).
    lia.
  - exfalso.
    assert (Hs : scanTokens ts i 0 = None) by (now rewrite scanTokens_tokenAt, Hat).
    apply scanTokens_none_iff in Hs; lia.
Qed.

Lemma accept_range_nonempty_witness :
  getPosFromIndex (buildTokens parisDoc) 1 < getPosFromIndex (buildTokens parisDoc) 34.
Proof.
  apply (accept_range_nonempty parisDoc parisBefore 1 34);
    [vm_compute; discriminate|reflexivity].
Defined.

(** ** A sentence that is in the text is found *)

Lemma splitSpaces_head_empty r :
  startsWithSpace r = true -> exists t, splitSpaces r = [] :: t.
Proof.
  induction r as [|c r IH]; [discriminate|].
  cbn [startsWithSpace splitSpaces]. intros ->.
  destruct (startsWithSpace r) eqn:Hr; [now apply IH|eauto].
Qed.

(** Every string consists of its pieces with the whitespace runs between
    them. *)
Lemma splitSpaces_matches t : wordsMatch (splitSpaces t) t.
Proof.
  induction t as [|c r IH]; [constructor|].
  cbn [splitSpaces]. destruct (isWhitespace c) eqn:Hc.
  - destruct (startsWithSpace r) eqn:Hr.
    + destruct (splitSpaces_head_empty r Hr) as [ws Hws]. rewrite Hws in *.
      inversion IH as [|w sep ws' rest Hne Hall Hws' Hm]; subst.
      * discriminate Hr.
      * change (wordsMatch ([] :: ws) ([] ++ (c :: sep) ++ rest)).
        constructor; auto; [discriminate|simpl; now rewrite Hc].
    + change (wordsMatch ([] :: splitSpaces r) ([] ++ [c] ++ r)).
      constructor; auto; [discriminate|simpl; now rewrite Hc|].
      apply splitSpaces_nonempty.
  - destruct (splitSpaces r) as [|w ws] eqn:E.
    + now destruct (splitSpaces_nonempty r).
    + inversion IH as [|w0 sep ws0 rest Hne Hall Hws Hm]; subst.
      * constructor.
      * change (wordsMatch ((c :: w) :: ws) ((c :: w) ++ sep ++ rest)).
        now constructor.
Qed.

(** X4.  Wherever the trimmed sentence stands in the flat text, also
    inside longer words and whatever syntax characters it holds, the
    locator finds a span, and one that starts no later. *)
Theorem sentence_in_text_is_found (pre post sentence : jstring) :
  exists i j,
    locate (pre ++ trim sentence ++ post) sentence = Normal (Some (i, j)) /\
    i <= jlen pre.
Proof.
  unfold locate. rewrite newRegExp_pattern.
  assert (Hm : itemsMatch (wordsItems (sentenceParts sentence)) (trim sentence)).
  { apply itemsMatch_words; [apply splitSpaces_nonempty|apply splitSpaces_matches]. }
  destruct (matchHere_complete _ _ Hm post) as [n Hn].
  destruct (exec (wordsItems (sentenceParts sentence))
              (pre ++ trim sentence ++ post) 0) as [[idx k]|] eqn:Hex.
  - eexists _, _. split; [reflexivity|].
    apply exec_some in Hex as (pre0 & rest0 & Heq & -> & _ & Hmin).
    destruct (Nat.le_gt_cases (length pre0) (length pre)) as [|Hgt];
      [unfold jlen; lia|].
    rewrite (Hmin pre (trim sentence ++ post) eq_refl Hgt) in Hn. discriminate.
  - rewrite (exec_none _ _ _ Hex pre (trim sentence ++ post) eq_refl) in Hn.
    discriminate.
Qed.

(** ** Whitespace around the sentence *)

Lemma trimStart_spaces a x :
  forallb isWhitespace a = true -> trimStart (a ++ x) = trimStart x.
Proof.
  induction a as [|c a IH]; [reflexivity|]. simpl.
  intros H. apply andb_prop in H as [-> H]. auto.
Qed.

Lemma trimStart_app x b :
  trimStart x <> [] -> trimStart (x ++ b) = trimStart x ++ b.
Proof.
  induction x as [|c x IH]; simpl; [congruence|].
  destruct (isWhitespace c); [exact IH|reflexivity].
Qed.

Lemma forallb_rev {A} (f : A -> bool) l :
  forallb f l = true -> forallb f (rev l) = true.
Proof.
  intros H. apply forallb_forall. intros x Hx.
  apply in_rev in Hx. rewrite forallb_forall in H. auto.
Qed.

Lemma trimEnd_spaces x b :
  forallb isWhitespace b = true -> trimEnd (x ++ b) = trimEnd x.
Proof.
  intros H. unfold trimEnd. rewrite rev_app_distr, trimStart_spaces; auto.
  now apply forallb_rev.
Qed.

Lemma trim_padding a s b :
  forallb isWhitespace a = true -> forallb isWhitespace b = true ->
  trim (a ++ s ++ b) = trim s.
Proof.
  intros Ha Hb. unfold trim. rewrite (trimStart_spaces a) by assumption.
  destruct (trimStart s) as [|c t] eqn:Hs.
  - assert (Hsb : trimStart (s ++ b) = []).
    { clear Ha. induction s as [|d s IH]; simpl in *.
      - now apply trimStart_blank.
      - destruct (isWhitespace d); [auto|discriminate]. }
    now rewrite Hsb.
  - rewrite trimStart_app by congruence. rewrite Hs. now apply trimEnd_spaces.
Qed.

(** X5.  Whitespace before and after the sentence of a record has no
    effect on where the sentence is located. *)
Theorem sentence_padding_ignored (txt a s b : jstring) :
  forallb isWhitespace a = true -> forallb isWhitespace b = true ->
  sentenceParts (a ++ s ++ b) = sentenceParts s /\
  locate txt (a ++ s ++ b) = locate txt s.
Proof.
  intros Ha Hb.
  assert (Hp : sentenceParts (a ++ s ++ b) = sentenceParts s)
    by (unfold sentenceParts; now rewrite trim_padding).
  split; [exact Hp|].
  unfold locate, sentencePattern. now rewrite Hp.
Qed.

Lemma sentence_padding_ignored_witness :
  locate (lit "The sky is blue.") (lit "  " ++ lit "sky is" ++ [nl])
  = locate (lit "The sky is blue.") (lit "sky is").
Proof.
  apply (sentence_padding_ignored (lit "The sky is blue.") (lit "  ")
           (lit "sky is") [nl]); reflexivity.
Defined.

(** ** A sentence that is the whole text of the first paragraph *)

Lemma exec_skip_spaces c its pre x :
  isWhitespace c = false -> forallb isWhitespace pre = true ->
  forall idx,
    exec (RChar c :: its) (pre ++ x) idx
    = exec (RChar c :: its) x (idx + length pre).
Proof.
  intros Hc. induction pre as [|d pre IH]; intros Hall idx.
  - simpl. now rewrite Nat.add_0_r.
  - simpl in Hall. apply andb_prop in Hall as [Hd Hall].
    cbn [app exec matchHere].
    destruct (N.eqb_spec c d) as [->|]; [congruence|].
    rewrite (IH Hall). f_equal. simpl. lia.
Qed.

Lemma exec_here items s n idx :
  matchHere items s = Some n -> exec items s idx = Some (idx, n).
Proof. intros H. destruct s; simpl; now rewrite H. Qed.

Lemma locate_after_spaces pre post sentence :
  forallb isWhitespace pre = true -> trim sentence <> [] ->
  locate (pre ++ trim sentence ++ post) sentence
  = Normal (Some (jlen pre, jlen pre + jlen (trim sentence))).
Proof.
  intros Hpre Hne. unfold locate. rewrite newRegExp_pattern.
  destruct (sentenceParts_words sentence) as [Hns Hnz]. specialize (Hnz Hne).
  assert (Hself : wordsMatch (sentenceParts sentence) (trim sentence))
    by apply splitSpaces_matches.
  assert (Hparts : sentenceParts sentence <> []) by apply splitSpaces_nonempty.
  assert (Hm : exists n, matchHere (wordsItems (sentenceParts sentence))
                           (trim sentence ++ post) = Some n).
  { apply matchHere_complete, itemsMatch_words; assumption. }
  destruct Hm as [n Hn].
  assert (Hlen : n = length (trim sentence)).
  { destruct (matchHere_sound _ _ _ Hn) as [Hle Hm].
    apply itemsMatch_words in Hm; [|assumption].
    assert (Heq : trim sentence = firstn n (trim sentence ++ post)).
    { apply (wordsMatch_unique _ _ Hself _ post (skipn n (trim sentence ++ post)));
        auto. now rewrite firstn_skipn. }
    apply (f_equal (@length codeUnit)) in Heq.
    rewrite length_firstn in Heq. lia. }
  destruct (sentenceParts_head _ Hne) as (c & w & ps & Hps & Hc).
  destruct (wordsItems_head c w ps) as [its Hits].
  rewrite Hps, Hits in *.
  rewrite exec_skip_spaces by assumption.
  rewrite (exec_here _ _ _ _ Hn). subst n. unfold jlen. simpl. reflexivity.
Qed.

Lemma tokens_first_paragraph a m t rest :
  buildTokens (PElem a true [PText m t] :: rest)
  = mkToken [nl] 0 true :: mkToken t 1 false
    :: flat_map pushToken (fragmentFrom rest (2 + jlen t)).
Proof.
  unfold buildTokens, descendants. cbn [fragmentFrom].
  rewrite nodesFrom_elem, nodeSize_elem. cbn [fragmentFrom fragmentSize nodesFrom nodeSize].
  replace (0 + (2 + (jlen t + 0))) with (2 + jlen t) by lia.
  reflexivity.
Qed.

Lemma first_block_token n r q :
  nodeIsBlock n = true ->
  exists more,
    flat_map pushToken (fragmentFrom (n :: r) q) = mkToken [nl] q true :: more.
Proof.
  intros Hb. cbn [fragmentFrom].
  destruct n as [m s|a b c|a b]; simpl in Hb; try discriminate; subst.
  - rewrite nodesFrom_elem. cbn [app flat_map pushToken isText nodeIsBlock]. eauto.
  - cbn [nodesFrom app flat_map pushToken isText nodeIsBlock]. eauto.
Qed.

Lemma paragraph_start_position t more :
  t <> [] ->
  getPosFromIndex (mkToken [nl] 0 true :: mkToken t 1 false :: more) 1 = 1.
Proof.
  intros Ht. unfold getPosFromIndex. cbn [scanTokens text pos isVirtual].
  change (jlen [nl]) with 1.
  assert (0 < jlen t) by (destruct t; [congruence|unfold jlen; simpl; lia]).
  destruct (Z.ltb_spec 1 (0 + 1)); [lia|].
  destruct (Z.ltb_spec 1 (0 + 1 + jlen t)); [|lia].
  reflexivity.
Qed.

(** X6.  A record whose trimmed sentence is the whole text of a document
    of one paragraph puts exactly that text in the range: from position 1,
    the start of the text, to the position of its end. *)
Theorem accept_whole_paragraph
  (edit : hostEdit) (a : string) (m : list string) (fb : Feedback) :
  trim (original_sentence fb) <> [] ->
  let t := trim (original_sentence fb) in
  let doc := [PElem a true [PText m t]] in
  locate (fullText (buildTokens doc)) (original_sentence fb)
  = Normal (Some (1, 1 + jlen t)) /\
  acceptEffect edit doc (Some fb)
  = match edit doc 1 (1 + jlen t) (suggested_text fb) with
    | HostDone doc' => Normal (doc', [AcceptComplete fb])
    | HostRaised doc' _ => Normal (doc', mutationFailedSignals)
    end.
Proof.
  intros Hne t doc.
  pose proof (jlen_nonneg t) as Hlen.
  assert (Hloc : locate (fullText (buildTokens doc)) (original_sentence fb)
                 = Normal (Some (1, 1 + jlen t))).
  { unfold doc. rewrite tokens_first_paragraph. unfold fullText.
    rewrite join_empty_sep. cbn [map concat text fragmentFrom flat_map].
    change ([nl] ++ t ++ []) with ([nl] ++ trim (original_sentence fb) ++ []).
    now rewrite locate_after_spaces. }
  split; [exact Hloc|].
  unfold acceptEffect. rewrite Hloc. unfold doc.
  rewrite !tokens_first_paragraph. cbn [fragmentFrom flat_map].
  rewrite (paragraph_start_position t []) by assumption.
  assert (Hend : getPosFromIndex [mkToken [nl] 0 true; mkToken t 1 false] (1 + jlen t)
                 = 1 + jlen t).
  { unfold getPosFromIndex. cbn [scanTokens text pos isVirtual].
    change (jlen [nl]) with 1.
    destruct (Z.ltb_spec (1 + jlen t) (0 + 1)); [lia|].
    destruct (Z.ltb_spec (1 + jlen t) (0 + 1 + jlen t)); [lia|].
    reflexivity. }
  rewrite Hend. reflexivity.
Qed.

Lemma accept_whole_paragraph_witness :
  acceptEffect textBlockHost parisDoc (Some parisRecord)
  = Normal (parisDocAfter, [AcceptComplete parisRecord]).
Proof.
  destruct (accept_whole_paragraph textBlockHost "paragraph" [] parisRecord)
    as [_ H]; [vm_compute; discriminate|].
  exact H.
Defined.

(** X7.  When the paragraph whose whole text is the sentence is followed
    by another block, the end of the match falls on the virtual newline of
    that block, and the range handed to the host ends one position inside
    the next block: two positions past the end of the paragraph's text,
    across the boundary between the two blocks. *)
Theorem accept_paragraph_before_block
  (edit : hostEdit) (a : string) (m : list string) (fb : Feedback)
  (next : pmnode) (rest : list pmnode) :
  trim (original_sentence fb) <> [] ->
  nodeIsBlock next = true ->
  let t := trim (original_sentence fb) in
  let doc := PElem a true [PText m t] :: next :: rest in
  locate (fullText (buildTokens doc)) (original_sentence fb)
  = Normal (Some (1, 1 + jlen t)) /\
  nodeSize (PElem a true [PText m t]) = 2 + jlen t /\
  acceptEffect edit doc (Some fb)
  = match edit doc 1 (jlen t + 3) (suggested_text fb) with
    | HostDone doc' => Normal (doc', [AcceptComplete fb])
    | HostRaised doc' _ => Normal (doc', mutationFailedSignals)
    end.
Proof.
  intros Hne Hblock t doc.
  pose proof (jlen_nonneg t) as Hlen.
  destruct (first_block_token next rest (2 + jlen t) Hblock) as [more Hmore].
  assert (Htok : buildTokens doc
                 = mkToken [nl] 0 true :: mkToken t 1 false
                   :: mkToken [nl] (2 + jlen t) true :: more).
  { unfold doc. now rewrite tokens_first_paragraph, Hmore. }
  assert (Hloc : locate (fullText (buildTokens doc)) (original_sentence fb)
                 = Normal (Some (1, 1 + jlen t))).
  { rewrite Htok. unfold fullText. rewrite join_empty_sep.
    cbn [map concat text].
    change ([nl] ++ t ++ [nl] ++ concat (map text more))
      with ([nl] ++ trim (original_sentence fb) ++ [nl] ++ concat (map text more)).
    now rewrite locate_after_spaces. }
  split; [exact Hloc|]. split; [rewrite nodeSize_elem; cbn [fragmentSize nodeSize]; lia|].
  unfold acceptEffect. rewrite Hloc. rewrite Htok.
  rewrite (paragraph_start_position t) by assumption.
  assert (Hend : getPosFromIndex
                   (mkToken [nl] 0 true :: mkToken t 1 false
                    :: mkToken [nl] (2 + jlen t) true :: more) (1 + jlen t)
                 = jlen t + 3).
  { unfold getPosFromIndex. cbn [scanTokens text pos isVirtual].
    change (jlen [nl]) with 1.
    destruct (Z.ltb_spec (1 + jlen t) (0 + 1)); [lia|].
    destruct (Z.ltb_spec (1 + jlen t) (0 + 1 + jlen t)); [lia|].
    destruct (Z.ltb_spec (1 + jlen t) (0 + 1 + jlen t + 1)); [|lia].
    lia. }
  rewrite Hend. reflexivity.
Qed.

Lemma accept_paragraph_before_block_witness :
  acceptEffect refusingHost twoParagraphs
    (Some (mkFeedback 1 (lit "ab") [] (lit "x") style low 0 2 pending))
  = match refusingHost twoParagraphs 1 5 (lit "x") with
    | HostDone doc' =>
        Normal (doc', [AcceptComplete
                         (mkFeedback 1 (lit "ab") [] (lit "x") style low 0 2 pending)])
    | HostRaised doc' _ => Normal (doc', mutationFailedSignals)
    end.
Proof.
  destruct (accept_paragraph_before_block refusingHost "paragraph" []
              (mkFeedback 1 (lit "ab") [] (lit "x") style low 0 2 pending)
              (paragraph "cd") [])
    as (_ & _ & H); [vm_compute; discriminate|reflexivity|].
  exact H.
Defined.

(** ** The word count *)

Lemma splitSpaces_space_cons c r :
  isWhitespace c = true ->
  hd [] (splitSpaces (c :: r)) = [] /\
  filter truthy (tl (splitSpaces (c :: r))) = filter truthy (splitSpaces r).
Proof.
  intros Hc. cbn [splitSpaces]. rewrite Hc.
  destruct (startsWithSpace r) eqn:Hr; [|now split].
  destruct (splitSpaces_head_empty r Hr) as [t ->]. now split.
Qed.

Lemma splitSpaces_char_cons c r :
  isWhitespace c = false ->
  splitSpaces (c :: r) = (c :: hd [] (splitSpaces r)) :: tl (splitSpaces r).
Proof.
  intros Hc. cbn [splitSpaces]. rewrite Hc.
  destruct (splitSpaces r) eqn:E; [now destruct (splitSpaces_nonempty r)|reflexivity].
Qed.

Lemma splitSpaces_hd_tl s : splitSpaces s = hd [] (splitSpaces s) :: tl (splitSpaces s).
Proof.
  destruct (splitSpaces s) eqn:E; [now destruct (splitSpaces_nonempty s)|reflexivity].
Qed.

Lemma kept_space_cons c r :
  isWhitespace c = true ->
  filter truthy (splitSpaces (c :: r)) = filter truthy (splitSpaces r).
Proof.
  intros Hc. destruct (splitSpaces_space_cons c r Hc) as [Hh Ht].
  rewrite (splitSpaces_hd_tl (c :: r)), Hh. exact Ht.
Qed.

Lemma kept_leading_spaces a x :
  forallb isWhitespace a = true ->
  filter truthy (splitSpaces (a ++ x)) = filter truthy (splitSpaces x).
Proof.
  induction a as [|c a IH]; [reflexivity|]. simpl app.
  intros H. simpl in H. apply andb_prop in H as [Hc H].
  rewrite kept_space_cons by assumption. auto.
Qed.

Lemma kept_blank a : forallb isWhitespace a = true -> filter truthy (splitSpaces a) = [].
Proof.
  intros H. rewrite <- (app_nil_r a). now rewrite kept_leading_spaces.
Qed.

Lemma kept_before_space a x :
  startsWithSpace x = true ->
  hd [] (splitSpaces (a ++ x)) = hd [] (splitSpaces a) /\
  filter truthy (tl (splitSpaces (a ++ x)))
  = filter truthy (tl (splitSpaces a)) ++ filter truthy (splitSpaces x).
Proof.
  intros Hx. induction a as [|c a [IHh IHt]].
  - destruct (splitSpaces_head_empty x Hx) as [t Ht].
    change ([] ++ x) with x. rewrite Ht. now split.
  - assert (Hwhole : filter truthy (splitSpaces (a ++ x))
                     = filter truthy (splitSpaces a) ++ filter truthy (splitSpaces x)).
    { rewrite (splitSpaces_hd_tl (a ++ x)), (splitSpaces_hd_tl a), IHh.
      cbn [filter]. destruct (truthy (hd [] (splitSpaces a))); simpl; now rewrite IHt. }
    change ((c :: a) ++ x) with (c :: a ++ x).
    destruct (isWhitespace c) eqn:Hc.
    + destruct (splitSpaces_space_cons c (a ++ x) Hc) as [H1 H2].
      destruct (splitSpaces_space_cons c a Hc) as [H3 H4].
      rewrite H1, H2, H3, H4. now split.
    + rewrite !splitSpaces_char_cons by assumption. cbn [hd tl].
      split; [now rewrite IHh|exact IHt].
Qed.

Lemma kept_across_space a x :
  startsWithSpace x = true ->
  filter truthy (splitSpaces (a ++ x))
  = filter truthy (splitSpaces a) ++ filter truthy (splitSpaces x).
Proof.
  intros Hx. destruct (kept_before_space a x Hx) as [Hh Ht].
  rewrite (splitSpaces_hd_tl (a ++ x)), (splitSpaces_hd_tl a), Hh.
  cbn [filter]. destruct (truthy (hd [] (splitSpaces a))); simpl; now rewrite Ht.
Qed.

(** X8.  The word count is 0 exactly for a text that is empty or all
    whitespace. *)
Theorem word_count_zero_iff_blank (text : jstring) :
  wordCount text = 0%nat <-> forallb isWhitespace text = true.
Proof.
  unfold wordCount. split.
  - induction text as [|c r IH]; [reflexivity|].
    destruct (isWhitespace c) eqn:Hc.
    + rewrite kept_space_cons by assumption. simpl. rewrite Hc. exact IH.
    + rewrite splitSpaces_char_cons by assumption. discriminate.
  - intros H. now rewrite kept_blank.
Qed.

(** X9.  A run of whitespace between two texts, whatever its length and
    its characters, separates their words: the count of the whole is the
    sum of the counts of the two texts. *)
Theorem word_count_across_space (a sep b : jstring) :
  sep <> [] -> forallb isWhitespace sep = true ->
  wordCount (a ++ sep ++ b) = (wordCount a + wordCount b)%nat.
Proof.
  intros Hne Hall. unfold wordCount.
  rewrite kept_across_space.
  - rewrite length_app, kept_leading_spaces by assumption. reflexivity.
  - destruct sep as [|d sep]; [congruence|]. simpl in *.
    now apply andb_prop in Hall as [-> _].
Qed.

Lemma word_count_across_space_witness :
  wordCount (lit "Paris is" ++ ([nl] ++ lit "  ") ++ lit "the capital")
  = (wordCount (lit "Paris is") + wordCount (lit "the capital"))%nat.
Proof.
  apply (word_count_across_space (lit "Paris is") ([nl] ++ lit "  ")
           (lit "the capital")); [discriminate|reflexivity].
Defined.

Lemma trimStart_decomp s :
  exists sp, forallb isWhitespace sp = true /\ s = sp ++ trimStart s.
Proof.
  induction s as [|c r (sp & Hsp & IH)]; simpl; [now exists []|].
  destruct (isWhitespace c) eqn:Hc.
  - exists (c :: sp). simpl. rewrite Hc, Hsp. split; [reflexivity|now f_equal].
  - now exists [].
Qed.

Lemma trim_decomp s :
  exists a b,
    forallb isWhitespace a = true /\ forallb isWhitespace b = true /\
    s = a ++ trim s ++ b.
Proof.
  destruct (trimStart_decomp s) as (a & Ha & Hs).
  destruct (trimStart_decomp (rev (trimStart s))) as (b & Hb & Hr).
  exists a, (rev b). split; [assumption|]. split; [now apply forallb_rev|].
  unfold trim, trimEnd. rewrite Hs at 1. f_equal.
  apply (f_equal (@rev codeUnit)) in Hr.
  now rewrite rev_involutive, rev_app_distr in Hr.
Qed.

Lemma filter_truthy_all l :
  Forall (fun w : jstring => w <> []) l -> filter truthy l = l.
Proof.
  induction 1 as [|w r Hw _ IH]; [reflexivity|].
  simpl. destruct w; [congruence|]. simpl. now rewrite IH.
Qed.

(** X10.  For a text that is not blank the word count is the number of
    parts into which the locator splits it as a sentence; the whitespace
    at the two ends does not count. *)
Theorem word_count_is_number_of_parts (text : jstring) :
  trim text <> [] ->
  wordCount text = length (sentenceParts text) /\
  wordCount (trim text) = wordCount text.
Proof.
  intros Hne.
  destruct (sentenceParts_words text) as [_ Hnz]. specialize (Hnz Hne).
  assert (Htrim : filter truthy (splitSpaces (trim text)) = sentenceParts text)
    by (now apply filter_truthy_all).
  assert (Hsame : filter truthy (splitSpaces text)
                  = filter truthy (splitSpaces (trim text))).
  { destruct (trim_decomp text) as (a & b & Ha & Hb & Heq).
    rewrite Heq at 1. rewrite kept_leading_spaces by assumption.
    destruct b as [|d b]; [now rewrite app_nil_r|].
    rewrite kept_across_space.
    - rewrite (kept_blank (d :: b)) by assumption. now rewrite app_nil_r.
    - simpl in *. now apply andb_prop in Hb as [-> _]. }
  unfold wordCount. rewrite Hsame, Htrim. now split.
Qed.

Lemma word_count_is_number_of_parts_witness :
  wordCount (lit "  The sky   is blue. ") = 4%nat.
Proof.
  destruct (word_count_is_number_of_parts (lit "  The sky   is blue. "))
    as [H _]; [vm_compute; discriminate|].
  exact H.
Defined.

(** ** Requests for review *)

Lemma trim_empty_blank s : trim s = [] -> forallb isWhitespace s = true.
Proof.
  intros H. destruct (trim_decomp s) as (a & b & Ha & Hb & Heq).
  rewrite Heq, H. simpl. rewrite forallb_app. now rewrite Ha, Hb.
Qed.

(** X11.  A request is sent only for a text that is not blank; it carries
    that text and a title that is never empty, and from then on the
    application is reviewing with the feedback panel open.  For a blank
    text there is one alert, no request, and the state stays as it was. *)
Theorem review_request_guard (app : App) :
  match reviewStart app with
  | (app', signals, Some request) =>
      trim (plainText app) <> [] /\
      body_content request = plainText app /\
      body_title request <> [] /\
      (title app <> [] -> body_title request = title app) /\
      isReviewing app' = true /\ isFeedbackExpanded app' = true /\
      core app' = core app /\ signals = []
  | (app', signals, None) =>
      forallb isWhitespace (plainText app) = true /\
      app' = app /\ signals = [Alert "Please enter some content to review"]
  end.
Proof.
  unfold reviewStart. destruct (trim (plainText app)) as [|c t] eqn:Ht; cbn [truthy].
  - repeat split. now apply trim_empty_blank.
  - cbn [body_content body_title isReviewing isFeedbackExpanded core].
    repeat split; try discriminate.
    + destruct (title app); cbn [truthy]; discriminate.
    + intros Hne. destruct (title app); [congruence|reflexivity].
Qed.

(** ** The answer of the review service *)

Lemma initPending_spec fbs :
  forall next,
    snd (initPending fbs next) = (next + length fbs)%nat /\
    map ref (fst (initPending fbs next)) = seq next (length fbs) /\
    map status (fst (initPending fbs next)) = repeat pending (length fbs) /\
    Forall2 (fun new old => new = withStatus old pending (ref new))
      (fst (initPending fbs next)) fbs /\
    filter isPending (fst (initPending fbs next)) = fst (initPending fbs next).
Proof.
  induction fbs as [|fb r IH]; intros next; simpl.
  - repeat split; try lia. constructor.
  - destruct (IH (S next)) as (H1 & H2 & H3 & H4 & H5).
    destruct (initPending r (S next)) as [r' next']. simpl in *.
    repeat split; try lia; try congruence.
    constructor; [reflexivity|assumption].
Qed.

(** X12.  When the service answers with review data, every record of the
    new review data is pending, whatever the answer held, and is a new
    object with a reference of its own; the records keep their other
    fields and their order, all of them are listed by the panel, and the
    application is no longer reviewing.  When the request fails in any way,
    the review data stay as they were, the failure is reported, and the
    application is no longer reviewing. *)
Theorem review_answer (app : App) :
  (forall data,
      let app' := fst (reviewFinish app (ResponseData data)) in
      isReviewing app' = false /\
      snd (reviewFinish app (ResponseData data)) = [] /\
      statuses (core app') = repeat pending (length (feedbacks data)) /\
      recordRefs (core app') = seq (nextRef (core app)) (length (feedbacks data)) /\
      nextRef (core app') = (nextRef (core app) + length (feedbacks data))%nat /\
      exists rd,
        reviewData (core app') = Some rd /\
        Forall2 (fun new old => new = withStatus old pending (ref new))
          (feedbacks rd) (feedbacks data) /\
        panelItems (core app') = feedbacks rd /\
        overall_score rd = overall_score data /\
        summary rd = summary data /\ is_ready rd = is_ready data) /\
  (forall outcome,
      (forall data, outcome <> ResponseData data) ->
      core (fst (reviewFinish app outcome)) = core app /\
      isReviewing (fst (reviewFinish app outcome)) = false /\
      snd (reviewFinish app outcome) = reviewFailedSignals).
Proof.
  split.
  - intros data. unfold reviewFinish.
    destruct (initPending_spec (feedbacks data) (nextRef (core app)))
      as (H1 & H2 & H3 & H4 & H5).
    destruct (initPending (feedbacks data) (nextRef (core app))) as [fbs next].
    simpl in *. repeat split; auto.
    eexists. split; [reflexivity|]. simpl. repeat split; auto.
  - intros outcome Hfail. destruct outcome; try (now repeat split).
    now destruct (Hfail data).
Qed.

(** ** Records as objects *)

Lemma mapStatus_absent fbs target s next :
  ~ In (ref target) (map ref fbs) -> mapStatus fbs target s next = (fbs, next).
Proof.
  induction fbs as [|f r IH]; intros Hn; [reflexivity|]. simpl in *.
  unfold sameObject. destruct (Nat.eqb_spec (ref f) (ref target)) as [He|He].
  - exfalso. apply Hn. now left.
  - rewrite IH; [reflexivity|]. intros H. apply Hn. now right.
Qed.

Lemma mapStatus_split fbs target s next :
  NoDup (map ref fbs) -> In (ref target) (map ref fbs) ->
  exists l1 f l2,
    fbs = l1 ++ f :: l2 /\ ref f = ref target /\
    ~ In (ref target) (map ref l1) /\ ~ In (ref target) (map ref l2) /\
    mapStatus fbs target s next = (l1 ++ withStatus f s next :: l2, S next).
Proof.
  induction fbs as [|f r IH]; intros Hnd Hin; [destruct Hin|].
  simpl in Hnd. inversion Hnd as [|? ? Hnotin Hnd']; subst.
  cbn [mapStatus]. unfold sameObject.
  destruct (Nat.eqb_spec (ref f) (ref target)) as [He|He].
  - exists [], f, r. rewrite <- He. repeat split; auto.
    rewrite mapStatus_absent; [reflexivity|]. simpl. now rewrite <- He.
  - destruct Hin as [Hin|Hin]; [congruence|].
    destruct (IH Hnd' Hin) as (l1 & g & l2 & -> & Hg & Hl1 & Hl2 & Hm).
    exists (f :: l1), g, l2. rewrite Hm. repeat split; auto.
    simpl. intros [H|H]; [congruence|auto].
Qed.

Lemma same_ref_same_record (l : list Feedback) a b :
  NoDup (map ref l) -> In a l -> In b l -> ref a = ref b -> a = b.
Proof.
  induction l as [|x r IH]; intros Hnd Ha Hb He; [destruct Ha|].
  simpl in Hnd. inversion Hnd as [|? ? Hnotin Hnd']; subst.
  destruct Ha as [->|Ha], Hb as [->|Hb]; auto.
  - exfalso. apply Hnotin. rewrite He. now apply in_map.
  - exfalso. apply Hnotin. rewrite <- He. now apply in_map.
Qed.

Lemma split_at_record (l l1 l2 : list Feedback) f fb :
  NoDup (map ref l) -> In fb l -> l = l1 ++ f :: l2 -> ref f = ref fb -> f = fb.
Proof.
  intros Hnd Hin -> He. apply (same_ref_same_record (l1 ++ f :: l2)); auto.
  apply in_elt.
Qed.

(** X13.  With records that are distinct objects, the completion of an
    accept for a record of the list changes that record and no other: a
    copy with status accepted takes its place, every other record is the
    same object at the same place, and the selection and the record
    waiting to be accepted are cleared. *)
Theorem accept_marks_one_record (st : AppState) (rd : ReviewResponse) (fb : Feedback) :
  distinctRecords st -> reviewData st = Some rd -> In fb (feedbacks rd) ->
  exists l1 l2,
    feedbacks rd = l1 ++ fb :: l2 /\
    onFeedbackAccepted st fb
    = mkApp (Some (mkReview (l1 ++ withStatus fb accepted (nextRef st) :: l2)
                     (overall_score rd) (summary rd) (is_ready rd)))
        None None (S (nextRef st)).
Proof.
  intros (Hnd & _ & _) Hrd Hin. unfold recordRefs in Hnd. rewrite Hrd in Hnd.
  destruct (mapStatus_split (feedbacks rd) fb accepted (nextRef st) Hnd
              (in_map ref _ _ Hin)) as (l1 & f & l2 & Heq & Hf & _ & _ & Hm).
  assert (f = fb) by (eapply split_at_record; eauto). subst f.
  exists l1, l2. split; [assumption|].
  unfold onFeedbackAccepted. rewrite Hrd, Hm. reflexivity.
Qed.

Lemma threeRecords_distinct : distinctRecords threeRecords.
Proof.
  unfold distinctRecords, recordRefs. simpl. repeat split.
  - repeat constructor; simpl; intuition discriminate.
  - intros r [<-|[<-|[<-|[]]]]; lia.
  - intros fb [[= <-]|[=]]. simpl. lia.
Qed.

Lemma accept_marks_one_record_witness :
  onFeedbackAccepted threeRecords recordB
  = mkApp (Some (mkReview [recordA; withStatus recordB accepted 4; recordC] 55
                   (lit "Three issues.") false)) None None 5.
Proof.
  destruct (accept_marks_one_record threeRecords
              (mkReview [recordA; recordB; recordC] 55 (lit "Three issues.") false)
              recordB threeRecords_distinct eq_refl)
    as (l1 & l2 & Heq & H); [simpl; auto|].
  rewrite H. destruct l1 as [|x [|y l1]]; simpl in Heq.
  - discriminate Heq.
  - injection Heq as <- <-. reflexivity.
  - injection Heq as _ _ Heq. destruct l1 as [|z [|z' l1]]; discriminate Heq.
Defined.

(** ** Records stay distinct objects *)

Lemma NoDup_replace {A} (a b : list A) x y :
  NoDup (a ++ x :: b) -> ~ In y (a ++ b) -> NoDup (a ++ y :: b).
Proof.
  induction a as [|z a IH]; simpl; intros Hnd Hy.
  - inversion Hnd; subst. now constructor.
  - inversion Hnd as [|? ? Hz Hnd']; subst. constructor.
    + rewrite in_app_iff in *. simpl in *. intuition congruence.
    + apply IH; [assumption|]. intros H. apply Hy. now right.
Qed.

Lemma mapStatus_distinct fbs target s next :
  NoDup (map ref fbs) -> (forall r, In r (map ref fbs) -> (r < next)%nat) ->
  NoDup (map ref (fst (mapStatus fbs target s next))) /\
  (next <= snd (mapStatus fbs target s next))%nat /\
  (forall r, In r (map ref (fst (mapStatus fbs target s next))) ->
             (r < snd (mapStatus fbs target s next))%nat).
Proof.
  intros Hnd Hlt.
  destruct (in_dec Nat.eq_dec (ref target) (map ref fbs)) as [Hin|Hout].
  - destruct (mapStatus_split fbs target s next Hnd Hin)
      as (l1 & f & l2 & -> & _ & _ & _ & ->).
    cbn [fst snd]. rewrite map_app in *. cbn [map ref withStatus] in *.
    split; [|split; [lia|]].
    + apply (NoDup_replace _ _ (ref f)); [assumption|].
      intros H. assert (next < next)%nat; [|lia].
      apply Hlt. rewrite in_app_iff in *. simpl. tauto.
    + intros r Hr. rewrite in_app_iff in Hr. simpl in Hr.
      destruct Hr as [Hr|[<-|Hr]]; [|lia|];
        (assert (r < next)%nat; [apply Hlt; rewrite in_app_iff; simpl; tauto|lia]).
  - rewrite (mapStatus_absent _ _ _ _ Hout). cbn [fst snd]. auto.
Qed.

(** X14.  When the records of the review data are distinct objects, every
    handler keeps them so: the completion of an accept and the dismissal
    of any record, the click on the accept button of a listed record, the
    answer to a review request, the reset and a change of the content. *)
Theorem records_stay_distinct (app : App) :
  distinctRecords (core app) ->
  (forall fb, distinctRecords (onFeedbackAccepted (core app) fb)) /\
  (forall fb, distinctRecords (handleRejectFeedback (core app) fb)) /\
  (forall fb, In fb (panelItems (core app)) ->
              distinctRecords (handleAcceptFeedback (core app) fb)) /\
  (forall outcome, distinctRecords (core (fst (reviewFinish app outcome)))) /\
  distinctRecords (core (handleReset app)) /\
  (forall html text, distinctRecords (core (handleContentChange app html text))).
Proof.
  intros Hd. pose proof Hd as (Hnd & Hlt & Hheld).
  assert (Hstatus : forall fb s keep,
             (keep = None \/ keep = feedbackToAccept (core app)) ->
             forall rd, reviewData (core app) = Some rd ->
             distinctRecords
               (let (updatedFeedbacks, next) :=
                  mapStatus (feedbacks rd) fb s (nextRef (core app)) in
                mkApp (Some (mkReview updatedFeedbacks (overall_score rd)
                               (summary rd) (is_ready rd))) None keep next)).
  { intros fb s keep Hkeep rd Hrd.
    unfold recordRefs in Hnd, Hlt. rewrite Hrd in Hnd, Hlt.
    destruct (mapStatus_distinct (feedbacks rd) fb s (nextRef (core app)) Hnd Hlt)
      as (H1 & H2 & H3).
    destruct (mapStatus (feedbacks rd) fb s (nextRef (core app))) as [fbs next].
    cbn [fst snd] in *. unfold distinctRecords, recordRefs. simpl.
    repeat split; auto.
    intros x [Hx|Hx]; [discriminate|].
    destruct Hkeep as [-> | ->]; [discriminate|].
    assert (ref x < nextRef (core app))%nat by (apply Hheld; now right). lia. }
  split; [|split; [|split; [|split; [|split]]]].
  - intros fb. unfold onFeedbackAccepted.
    destruct (reviewData (core app)) as [rd|] eqn:Hrd; [|assumption].
    apply (Hstatus fb accepted None); auto.
  - intros fb. unfold handleRejectFeedback.
    destruct (reviewData (core app)) as [rd|] eqn:Hrd; [|assumption].
    apply (Hstatus fb rejected (feedbackToAccept (core app))); auto.
  - intros fb Hin. unfold distinctRecords, recordRefs, handleAcceptFeedback. simpl.
    repeat split; auto.
    intros x [Hx|Hx]; [apply Hheld; now left|]. injection Hx as <-.
    apply Hlt. unfold panelItems, pendingFeedbacks, recordRefs in *.
    destruct (reviewData (core app)) as [rd|]; [|destruct Hin].
    apply filter_In in Hin as [Hin _]. now apply in_map.
  - intros outcome. destruct outcome; try exact Hd.
    unfold reviewFinish.
    destruct (initPending_spec (feedbacks data) (nextRef (core app)))
      as (H1 & H2 & _).
    destruct (initPending (feedbacks data) (nextRef (core app))) as [fbs next].
    cbn [fst snd] in *. unfold distinctRecords, recordRefs. simpl.
    rewrite H2. repeat split.
    + apply seq_NoDup.
    + intros r Hr. apply in_seq in Hr. lia.
    + intros x Hx. assert (ref x < nextRef (core app))%nat by (apply Hheld; exact Hx).
      lia.
  - unfold distinctRecords, recordRefs, handleReset. simpl. repeat split.
    + constructor.
    + intros r [].
    + intros x [Hx|Hx]; [discriminate|]. apply Hheld. now right.
  - intros html text. exact Hd.
Qed.

Lemma records_stay_distinct_witness :
  distinctRecords (core initialApp) /\
  distinctRecords
    (core (fst (reviewFinish initialApp
                  (ResponseData (mkReview [recordA; recordA] 40 [] false))))).
Proof.
  assert (H0 : distinctRecords (core initialApp)).
  { unfold distinctRecords, recordRefs. simpl. repeat split.
    - constructor.
    - intros r [].
    - intros fb [H|H]; discriminate H. }
  split; [exact H0|].
  destruct (records_stay_distinct initialApp H0) as (_ & _ & _ & H & _).
  apply H.
Defined.

(** ** A completion that comes late *)

Lemma review_same rd :
  mkReview (feedbacks rd) (overall_score rd) (summary rd) (is_ready rd) = rd.
Proof. now destruct rd. Qed.

Lemma completion_for_unknown_object st fb :
  ~ In (ref fb) (recordRefs st) ->
  reviewData (onFeedbackAccepted st fb) = reviewData st.
Proof.
  intros Hout. unfold onFeedbackAccepted, recordRefs in *.
  destruct (reviewData st) as [rd|] eqn:Hrd; [|assumption].
  rewrite (mapStatus_absent _ _ _ _ Hout). simpl. now rewrite review_same.
Qed.

(** X15.  The completion of an accept looks its record up by identity.
    For an object that is not in the review data it changes no record; in
    particular, once a listed record has been dismissed, a completion that
    still carries the object from before the dismissal leaves it
    rejected. *)
Theorem late_completion_changes_no_record (st : AppState) (fb : Feedback) :
  distinctRecords st ->
  (~ In (ref fb) (recordRefs st) ->
   reviewData (onFeedbackAccepted st fb) = reviewData st) /\
  (In fb (panelItems st) ->
   reviewData (onFeedbackAccepted (handleRejectFeedback st fb) fb)
   = reviewData (handleRejectFeedback st fb) /\
   exists l1 l2,
     recordRefs st = map ref l1 ++ ref fb :: map ref l2 /\
     statuses (handleRejectFeedback st fb)
     = map status l1 ++ rejected :: map status l2).
Proof.
  intros (Hnd & Hlt & _). split; [apply completion_for_unknown_object|].
  intros Hin. unfold panelItems, pendingFeedbacks, recordRefs in *.
  destruct (reviewData st) as [rd|] eqn:Hrd; [|destruct Hin].
  apply filter_In in Hin as [Hin _].
  destruct (mapStatus_split (feedbacks rd) fb rejected (nextRef st) Hnd
              (in_map ref _ _ Hin)) as (l1 & f & l2 & Heq & Hf & Hl1 & Hl2 & Hm).
  assert (f = fb) by (eapply split_at_record; eauto). subst f.
  assert (Hrej : handleRejectFeedback st fb
                 = mkApp (Some (mkReview (l1 ++ withStatus fb rejected (nextRef st) :: l2)
                                  (overall_score rd) (summary rd) (is_ready rd)))
                     None (feedbackToAccept st) (S (nextRef st))).
  { unfold handleRejectFeedback. now rewrite Hrd, Hm. }
  split.
  - apply completion_for_unknown_object. rewrite Hrej.
    unfold recordRefs. cbn [reviewData feedbacks]. rewrite map_app.
    cbn [map ref withStatus]. rewrite in_app_iff. simpl.
    assert (ref fb < nextRef st)%nat by (apply Hlt; now apply in_map).
    intros [H'|[H'|H']]; [auto|lia|auto].
  - exists l1, l2. rewrite Hrej, Heq. unfold statuses.
    cbn [reviewData feedbacks]. rewrite !map_app. split; reflexivity.
Qed.

Lemma late_completion_changes_no_record_witness :
  statuses (onFeedbackAccepted (handleRejectFeedback threeRecords recordB) recordB)
  = [pending; rejected; accepted].
Proof.
  destruct (late_completion_changes_no_record threeRecords recordB
              threeRecords_distinct) as [_ H].
  destruct H as [H _]; [simpl; auto|].
  unfold statuses. rewrite H. reflexivity.
Defined.

(** ** What the panel lists *)

Lemma filter_pending_middle l1 fb l2 :
  filter isPending (l1 ++ fb :: l2)
  = filter isPending l1 ++ (if isPending fb then [fb] else []) ++ filter isPending l2.
Proof.
  rewrite filter_app. cbn [filter]. now destruct (isPending fb).
Qed.

Lemma mapStatus_at l1 fb l2 s next :
  NoDup (map ref (l1 ++ fb :: l2)) ->
  mapStatus (l1 ++ fb :: l2) fb s next = (l1 ++ withStatus fb s next :: l2, S next).
Proof.
  induction l1 as [|x l1 IH]; intros Hnd; simpl in Hnd;
    inversion Hnd as [|? ? Hn Hnd']; subst.
  - cbn [app mapStatus]. unfold sameObject. rewrite Nat.eqb_refl.
    now rewrite (mapStatus_absent _ _ _ _ Hn).
  - cbn [app mapStatus]. unfold sameObject.
    destruct (Nat.eqb_spec (ref x) (ref fb)) as [He|He].
    + exfalso. apply Hn. rewrite map_app, He. apply in_or_app. right. now left.
    + now rewrite (IH Hnd').
Qed.

(** X16.  With records that are distinct objects, dismissing a listed
    record, and likewise completing its accept, takes exactly that comment
    out of the panel: the comments before it and after it stay, in their
    order. *)
Theorem panel_drops_the_record (st : AppState) (fb : Feedback) :
  distinctRecords st -> In fb (panelItems st) ->
  exists before after,
    panelItems st = before ++ fb :: after /\
    panelItems (handleRejectFeedback st fb) = before ++ after /\
    panelItems (onFeedbackAccepted st fb) = before ++ after.
Proof.
  intros (Hnd & _ & _) Hin. unfold panelItems, pendingFeedbacks, recordRefs in *.
  destruct (reviewData st) as [rd|] eqn:Hrd; [|destruct Hin].
  apply filter_In in Hin as [Hin Hp].
  destruct (in_split _ _ Hin) as (l1 & l2 & Heq). rewrite Heq in Hnd.
  pose proof (mapStatus_at l1 fb l2 rejected (nextRef st) Hnd) as Hrej.
  pose proof (mapStatus_at l1 fb l2 accepted (nextRef st) Hnd) as Hacc.
  rewrite <- Heq in Hrej, Hacc.
  exists (filter isPending l1), (filter isPending l2).
  unfold handleRejectFeedback, onFeedbackAccepted. rewrite Hrd, Hrej, Hacc.
  cbn [reviewData feedbacks]. rewrite Heq, !filter_pending_middle, Hp.
  unfold isPending at 3 6. cbn [status withStatus]. simpl. repeat split.
Qed.

Lemma panel_drops_the_record_witness :
  panelItems threeRecords = [recordA; recordB] /\
  panelItems (handleRejectFeedback threeRecords recordB) = [recordA].
Proof.
  split; [reflexivity|].
  destruct (panel_drops_the_record threeRecords recordB threeRecords_distinct)
    as (before & after & H1 & H2 & _); [simpl; auto|].
  rewrite H2. change (panelItems threeRecords) with ([recordA] ++ recordB :: []) in H1.
  destruct before as [|x [|y before]]; simpl in H1.
  - discriminate H1.
  - injection H1 as <- <-. reflexivity.
  - injection H1 as _ _ H1. destruct before; discriminate H1.
Defined.

(** ** The markers of the highlight pass *)

Lemma markers_mergeTexts l :
  flat_map markersIn (mergeTexts l) = flat_map markersIn l.
Proof.
  induction l as [|[s|t c o ks] r IH]; [reflexivity| |].
  - cbn [mergeTexts]. destruct s as [|ch s]; [exact IH|].
    destruct (mergeTexts r) as [|[s'|t c o ks] r']; exact IH.
  - cbn [mergeTexts flat_map]. now rewrite IH.
Qed.

Lemma markers_map (g : dnode -> dnode) ks :
  Forall (fun k => markersIn (g k) = markersIn k) ks ->
  flat_map markersIn (map g ks) = flat_map markersIn ks.
Proof.
  induction 1 as [|k r Hk _ IH]; [reflexivity|].
  cbn [map flat_map]. now rewrite Hk, IH.
Qed.

Lemma markersIn_elem t c o ks :
  markersIn (DElem t c o ks)
  = (if isHighlight (DElem t c o []) then [(o, concat (flat_map textNodes ks))] else [])
    ++ flat_map markersIn ks.
Proof. reflexivity. Qed.

Lemma markersIn_normalizeNode n : markersIn (normalizeNode n) = markersIn n.
Proof.
  induction n as [s|t c o ks IH] using dnode_tree_ind; [reflexivity|].
  cbn [normalizeNode]. rewrite !markersIn_elem.
  now rewrite normalized_text, markers_mergeTexts, (markers_map _ _ IH).
Qed.

Lemma markers_normalized ks :
  flat_map markersIn (mergeTexts (map normalizeNode ks)) = flat_map markersIn ks.
Proof.
  rewrite markers_mergeTexts. apply markers_map.
  apply Forall_forall. intros k _. apply markersIn_normalizeNode.
Qed.

Lemma unmarked_children ks :
  Forall (fun k => isHighlight k = false -> markersIn (removeHighlightsIn k) = []) ks ->
  flat_map markersIn (map (unmark removeHighlightsIn) ks) = [].
Proof.
  induction 1 as [|k r Hk _ IH]; [reflexivity|].
  cbn [map flat_map]. rewrite IH, app_nil_r. unfold unmark.
  destruct (isHighlight k); [reflexivity|now apply Hk].
Qed.

Lemma removeHighlightsIn_markers n :
  isHighlight n = false -> markersIn (removeHighlightsIn n) = [].
Proof.
  induction n as [s|t c o ks IH] using dnode_tree_ind; [reflexivity|].
  intros Hn. cbn [removeHighlightsIn].
  assert (Hown : isHighlight (DElem t c o []) = false) by exact Hn.
  destruct (existsb isHighlight ks); rewrite markersIn_elem, Hown;
    rewrite ?markers_normalized; now apply unmarked_children.
Qed.

Lemma unmarked_tree n :
  markersIn n = [] -> isHighlight n = false /\ removeHighlightsIn n = n.
Proof.
  induction n as [s|t c o ks IH] using dnode_tree_ind; [now split|].
  rewrite markersIn_elem. intros H. apply app_eq_nil in H as [Hown Hkids].
  assert (Hn : isHighlight (DElem t c o ks) = false).
  { change (isHighlight (DElem t c o ks)) with (isHighlight (DElem t c o [])).
    destruct (isHighlight (DElem t c o [])); [discriminate Hown|reflexivity]. }
  split; [exact Hn|].
  assert (H : existsb isHighlight ks = false
              /\ map (unmark removeHighlightsIn) ks = ks).
  { clear Hown Hn. induction IH as [|k r Hk _ IHr]; [now split|].
    cbn [flat_map] in Hkids. apply app_eq_nil in Hkids as [Hk0 Hr0].
    destruct (Hk Hk0) as [Hh Hsame]. destruct (IHr Hr0) as [He Hm].
    cbn [existsb map]. unfold unmark at 1. rewrite Hh, He, Hsame, Hm. now split. }
  destruct H as [He Hm]. cbn [removeHighlightsIn]. now rewrite He, Hm.
Qed.

(** X17.  The first step of the highlight effect leaves no marker in the
    tree, whatever markers, nested or not, it held; a tree that holds no
    marker is left exactly as it is, without a normalization; so taking
    the markers out twice is the same as taking them out once. *)
Theorem removeHighlights_leaves_no_marker (d : dom) :
  markers (removeHighlights d) = [] /\
  (markers d = [] -> removeHighlights d = d) /\
  removeHighlights (removeHighlights d) = removeHighlights d.
Proof.
  assert (Hnone : forall x, markers (removeHighlights x) = []).
  { intros x. unfold markers, removeHighlights.
    destruct (existsb isHighlight x); rewrite ?markers_normalized;
      apply unmarked_children, Forall_forall; intros k _;
      apply removeHighlightsIn_markers. }
  assert (Hsame : forall x, markers x = [] -> removeHighlights x = x).
  { intros x Hx. unfold markers, removeHighlights in *.
    assert (H : existsb isHighlight x = false
                /\ map (unmark removeHighlightsIn) x = x).
    { induction x as [|k r IHr]; [now split|].
      cbn [flat_map] in Hx. apply app_eq_nil in Hx as [Hk0 Hr0].
      destruct (unmarked_tree k Hk0) as [Hh Hk]. destruct (IHr Hr0) as [He Hm].
      cbn [existsb map]. unfold unmark at 1. rewrite Hh, He, Hk, Hm. now split. }
    destruct H as [He Hm]. now rewrite He, Hm. }
  split; [apply Hnone|split; [apply Hsame|apply Hsame, Hnone]].
Qed.

Lemma replaceText_text f (ks : dom) k s :
  nth_error (walkerTexts ks) k = Some s ->
  concat (flat_map textNodes (f s)) = s ->
  domText (replaceText f ks k) = domText ks.
Proof.
  intros Hk Hf. unfold domText.
  rewrite (walkerTexts_replaceText _ _ _ _ Hk), !concat_app, Hf.
  pose proof (f_equal (@concat _) (nth_error_split_texts _ _ _ Hk)) as E.
  rewrite concat_app in E. cbn [concat] in E. now rewrite E.
Qed.

Lemma markers_replaceText_list f (l : dom) :
  Forall (fun n => forall k s,
              nth_error (textNodes n) k = Some s ->
              concat (flat_map textNodes (f s)) = s ->
              exists l1 l2,
                markersIn n = l1 ++ l2 /\
                flat_map markersIn (replaceTextIn f n k)
                = l1 ++ flat_map markersIn (f s) ++ l2) l ->
  forall k s,
    nth_error (walkerTexts l) k = Some s ->
    concat (flat_map textNodes (f s)) = s ->
    exists l1 l2,
      markers l = l1 ++ l2 /\
      markers (replaceText f l k) = l1 ++ flat_map markersIn (f s) ++ l2.
Proof.
  unfold markers, walkerTexts.
  induction 1 as [|x r Hx _ IH]; intros k s Hk Hf.
  - destruct k; discriminate Hk.
  - cbn [flat_map replaceText] in *.
    destruct (Nat.ltb_spec k (length (textNodes x))) as [Hlt|Hge].
    + rewrite nth_error_app1 in Hk by assumption.
      destruct (Hx k s Hk Hf) as (l1 & l2 & E1 & E2).
      exists l1, (l2 ++ flat_map markersIn r).
      rewrite flat_map_app, E1, E2, <- !app_assoc. now split.
    + rewrite nth_error_app2 in Hk by assumption.
      destruct (IH _ s Hk Hf) as (l1 & l2 & E1 & E2).
      exists (markersIn x ++ l1), l2. cbn [flat_map].
      rewrite E1, E2, <- !app_assoc. now split.
Qed.

Lemma markers_replaceTextIn f n :
  forall k s,
    nth_error (textNodes n) k = Some s ->
    concat (flat_map textNodes (f s)) = s ->
    exists l1 l2,
      markersIn n = l1 ++ l2 /\
      flat_map markersIn (replaceTextIn f n k)
      = l1 ++ flat_map markersIn (f s) ++ l2.
Proof.
  induction n as [s0|t c o ks IH] using dnode_tree_ind; intros k s Hk Hf.
  - destruct k as [|k]; [|destruct k; discriminate Hk].
    injection Hk as ->. exists [], []. cbn [replaceTextIn app].
    now rewrite app_nil_r.
  - cbn [textNodes] in Hk.
    destruct (markers_replaceText_list f ks IH k s Hk Hf) as (l1 & l2 & E1 & E2).
    unfold markers in E1, E2.
    exists ((if isHighlight (DElem t c o [])
             then [(o, concat (flat_map textNodes ks))] else []) ++ l1), l2.
    rewrite replaceTextIn_elem. cbn [flat_map]. rewrite app_nil_r, !markersIn_elem.
    rewrite E1, E2, <- !app_assoc.
    pose proof (replaceText_text f ks k s Hk Hf) as Ht.
    unfold domText, walkerTexts in Ht. rewrite Ht. now split.
Qed.

Lemma markers_replaceText f (d : dom) k s :
  nth_error (walkerTexts d) k = Some s ->
  concat (flat_map textNodes (f s)) = s ->
  exists l1 l2,
    markers d = l1 ++ l2 /\
    markers (replaceText f d k) = l1 ++ flat_map markersIn (f s) ++ l2.
Proof.
  apply markers_replaceText_list, Forall_forall. intros n _.
  apply markers_replaceTextIn.
Qed.

Lemma wrapRange_markers a b fb sel data :
  flat_map markersIn (wrapRange a b (highlightMark fb sel) data)
  = [(Some (ref fb), slice a b data)].
Proof.
  unfold wrapRange, highlightMark, slice. cbn. now rewrite app_nil_r.
Qed.

Lemma wrapRange_text a b fb sel data :
  0 <= a <= b ->
  concat (flat_map textNodes (wrapRange a b (highlightMark fb sel) data)) = data.
Proof.
  intros H. unfold wrapRange, highlightMark. cbn. rewrite !app_nil_r.
  replace (Z.to_nat b) with (Z.to_nat (b - a) + Z.to_nat a)%nat by lia.
  rewrite <- skipn_skipn, firstn_skipn. apply firstn_skipn.
Qed.

(** One round of [forEach]: the markers that were there stay, in their
    order and with their text, and at most one is added. *)
Lemma paintRecord_markers d fb sel :
  exists d',
    paintRecord d fb sel = Some (Normal d') /\ domText d' = domText d /\
    (markers d' = markers d \/
     exists l1 l2 e,
       markers d = l1 ++ l2 /\
       markers d' = l1 ++ (Some (ref fb), slice (start_index fb) e (domText d)) :: l2 /\
       start_index fb < e <= end_index fb).
Proof.
  rewrite paintRecord_outcome.
  destruct (runAt (walkerTexts d) (start_index fb) 0 0)
    as [[[k nodeStart] data]|] eqn:Hrun; [|eauto].
  destruct (Z.ltb_spec (start_index fb) (end_index fb)) as [Hlt|Hge]; [|eauto].
  destruct (runAt_spec _ _ _ _ _ _ _ Hrun) as (i & Hki & Hi & Hns & Hrange).
  simpl in Hki. subst k.
  set (stop := Z.min (end_index fb) (nodeStart + jlen data)).
  pose proof (jlen_nonneg (concat (firstn i (walkerTexts d)))) as Hpre.
  assert (Hf : concat (flat_map textNodes
                         (wrapRange (start_index fb - nodeStart) (stop - nodeStart)
                            (highlightMark fb sel) data)) = data).
  { apply wrapRange_text. unfold stop. lia. }
  eexists. split; [reflexivity|]. split; [now apply (replaceText_text _ _ _ data)|].
  right.
  destruct (markers_replaceText _ d i data Hi Hf) as (l1 & l2 & E1 & E2).
  exists l1, l2, stop. split; [exact E1|]. split; [|unfold stop; lia].
  rewrite E2, wrapRange_markers. cbn [app]. do 3 f_equal.
  unfold domText. rewrite (nth_error_split_texts _ _ _ Hi) at 1.
  rewrite concat_app. cbn [concat].
  rewrite slice_inside; unfold stop in *; try lia.
  replace (jlen (concat (firstn i (walkerTexts d)))) with nodeStart by lia.
  reflexivity.
Qed.

Lemma forEachPaint_markers sel text pool :
  forall fbs d,
    domText d = text -> incl fbs pool -> Forall (markerOf pool text) (markers d) ->
    exists d',
      forEachPaint fbs sel d = Some (Normal d') /\ domText d' = text /\
      (length (markers d') <= length (markers d) + length fbs)%nat /\
      Forall (markerOf pool text) (markers d').
Proof.
  induction fbs as [|fb r IH]; intros d Ht Hincl Hall.
  - exists d. cbn [forEachPaint length]. repeat split; auto. lia.
  - cbn [forEachPaint].
    destruct (paintRecord_markers d fb sel) as (d1 & -> & Ht1 & Hm).
    assert (Hr : incl r pool) by (intros x Hx; apply Hincl; now right).
    assert (H1 : (length (markers d1) <= S (length (markers d)))%nat
                 /\ Forall (markerOf pool text) (markers d1)).
    { destruct Hm as [->|(l1 & l2 & e & E1 & E2 & He)]; [split; [lia|assumption]|].
      rewrite E1 in *. rewrite E2. split.
      - rewrite !length_app. cbn [length]. lia.
      - apply Forall_app in Hall as [Ha Hb]. apply Forall_app. split; [exact Ha|].
        constructor; [|exact Hb]. exists fb, e. rewrite Ht.
        repeat split; try lia. apply Hincl. now left. }
    destruct H1 as [Hlen Hall1].
    destruct (IH d1 (eq_trans Ht1 Ht) Hr Hall1) as (d2 & -> & Ht2 & Hlen2 & Hall2).
    exists d2. cbn [length]. repeat split; auto. lia.
Qed.

(** X18.  After a pass of the highlight effect outside the markdown mode,
    whatever markers the tree held before, every marker of the tree
    belongs to a pending record of the list: its click handler selects
    that record, and it covers the characters of the rendered text from
    the record's start index up to an offset that is past the start index
    and not past the record's end index.  There are no more markers than
    pending records. *)
Theorem pass_markers_belong_to_pending
  (d : dom) (fbs : list Feedback) (selected : option Feedback) :
  exists d',
    highlightEffect false d fbs selected = Some (Normal d') /\
    (length (markers d') <= length (filter isPending fbs))%nat /\
    Forall (markerOf (filter isPending fbs) (domText d)) (markers d') /\
    (forall fb, In fb (filter isPending fbs) <-> In fb fbs /\ status fb = pending).
Proof.
  assert (Hnone : markers (removeHighlights d) = []).
  { unfold markers, removeHighlights.
    destruct (existsb isHighlight d); rewrite ?markers_normalized;
      apply unmarked_children, Forall_forall; intros k _;
      apply removeHighlightsIn_markers. }
  destruct (forEachPaint_markers selected (domText d) (filter isPending fbs)
              (filter isPending fbs) (removeHighlights d)
              (removeHighlights_text d) (incl_refl _))
    as (d' & Hrun & _ & Hlen & Hall).
  { rewrite Hnone. constructor. }
  exists d'. rewrite Hnone in Hlen. cbn [length] in Hlen.
  split; [exact Hrun|]. split; [lia|]. split; [exact Hall|].
  intros fb. rewrite filter_In. unfold isPending.
  split; intros [Hin Hp]; (split; [exact Hin|]);
    destruct (status fb); congruence.
Qed.

(** ** After a reset *)

(** X19.  After a reset the panel lists nothing; a review request is
    refused with the alert and changes nothing; the completion of an
    accept and a dismissal change nothing.  The record waiting to be
    accepted, if there is one, is still waiting. *)
Theorem reset_clears_the_review (app : App) :
  panelItems (core (handleReset app)) = [] /\
  reviewStart (handleReset app)
  = (handleReset app, [Alert "Please enter some content to review"], None) /\
  (forall fb,
      onFeedbackAccepted (core (handleReset app)) fb = core (handleReset app) /\
      handleRejectFeedback (core (handleReset app)) fb = core (handleReset app)) /\
  feedbackToAccept (core (handleReset app)) = feedbackToAccept (core app).
Proof.
  repeat split.
Qed.

